(** * go-websocket: handshake, frame codec and connection loop

    A shallow embedding of [main.go]: the upgrade handshake of
    [websocketHandler], the frame decoder [readFrame], the encoders
    [writeFrame] and [writeCloseFrame], and the echo loop that ties them
    together.

    Conventions.
    - A Go [byte] is a [Byte.byte]; [int b] is Go's conversion [int(b)] and
      [as_byte z] is Go's truncating conversion [byte(z)].
    - A Go [int] is a [Z]; every value the program computes stays far below
      2^63, so no wrap-around is needed on the 64-bit platforms Go's [int]
      is 64 bits wide on.
    - The peer's side of the connection is a finite list of bytes followed by
      end of file. *)

From Stdlib Require Import ZArith List Strings.Byte String Ascii Bool Lia.
From stdpp Require Import gmap strings.
From Equations Require Import Equations.
Import ListNotations.

Local Open Scope Z_scope.

(** ** Bytes *)

Definition int (b : byte) : Z := Z.of_N (Byte.to_N b).

Definition as_byte (z : Z) : byte :=
  match Byte.of_N (Z.to_N (z mod 256)) with
  | Some b => b
  | None => x00
  end.

Definition band (a b : byte) : byte := as_byte (Z.land (int a) (int b)).
Definition bor (a b : byte) : byte := as_byte (Z.lor (int a) (int b)).
Definition bxor (a b : byte) : byte := as_byte (Z.lxor (int a) (int b)).

Definition byte_eqb (a b : byte) : bool := Byte.eqb a b.

(** [[]byte(s)] for a Go string. *)
Definition bytes_of_string (s : string) : list byte := list_byte_of_string s.

(** ** crypto/sha1 (FIPS 180-4), as the Go standard library computes it *)

Module Sha1.

Definition mask32 : Z := 0xFFFFFFFF.
Definition w32 (x : Z) : Z := Z.land x mask32.
Definition add32 (x y : Z) : Z := w32 (x + y).
Definition rotl (n x : Z) : Z :=
  Z.lor (w32 (Z.shiftl x n)) (Z.shiftr x (32 - n)).
Definition not32 (x : Z) : Z := Z.lxor x mask32.

(** Big-endian packing. *)
Definition be_word (b0 b1 b2 b3 : byte) : Z :=
  Z.lor (Z.lor (Z.shiftl (int b0) 24) (Z.shiftl (int b1) 16))
        (Z.lor (Z.shiftl (int b2) 8) (int b3)).

Definition word_bytes (x : Z) : list byte :=
  [as_byte (Z.shiftr x 24); as_byte (Z.shiftr x 16);
   as_byte (Z.shiftr x 8); as_byte x].

Definition u64_bytes (x : Z) : list byte :=
  word_bytes (Z.shiftr x 32) ++ word_bytes x.

(** Message padding: 0x80, zeros up to 56 mod 64, the bit length. *)
Definition pad (msg : list byte) : list byte :=
  let n := Z.of_nat (List.length msg) in
  let k := Z.to_nat ((55 - n) mod 64) in
  msg ++ x80 :: repeat x00 k ++ u64_bytes (8 * n).

Fixpoint words (bs : list byte) : list Z :=
  match bs with
  | b0 :: b1 :: b2 :: b3 :: rest => be_word b0 b1 b2 b3 :: words rest
  | _ => []
  end.

Fixpoint chunks (n : nat) (fuel : nat) (ws : list Z) : list (list Z) :=
  match fuel with
  | O => []
  | S fuel' =>
      match ws with
      | [] => []
      | _ => firstn n ws :: chunks n fuel' (skipn n ws)
      end
  end.

(** Message schedule, most recent word first. *)
Fixpoint extend (k : nat) (rev_ws : list Z) : list Z :=
  match k with
  | O => rev_ws
  | S k' =>
      let w := rotl 1 (Z.lxor (Z.lxor (nth 2 rev_ws 0) (nth 7 rev_ws 0))
                              (Z.lxor (nth 13 rev_ws 0) (nth 15 rev_ws 0))) in
      extend k' (w :: rev_ws)
  end.

Definition schedule (block : list Z) : list Z :=
  rev (extend 64 (rev block)).

Definition f (t : nat) (b c d : Z) : Z :=
  if (t <? 20)%nat then Z.lor (Z.land b c) (Z.land (not32 b) d)
  else if (t <? 40)%nat then Z.lxor (Z.lxor b c) d
  else if (t <? 60)%nat then
    Z.lor (Z.lor (Z.land b c) (Z.land b d)) (Z.land c d)
  else Z.lxor (Z.lxor b c) d.

Definition K (t : nat) : Z :=
  if (t <? 20)%nat then 0x5A827999
  else if (t <? 40)%nat then 0x6ED9EBA1
  else if (t <? 60)%nat then 0x8F1BBCDC
  else 0xCA62C1D6.

Record state := St { ha : Z; hb : Z; hc : Z; hd : Z; he : Z }.

Definition init : state :=
  St 0x67452301 0xEFCDAB89 0x98BADCFE 0x10325476 0xC3D2E1F0.

Fixpoint rounds (t : nat) (ws : list Z) (s : state) : state :=
  match ws with
  | [] => s
  | w :: ws' =>
      let '(St a b c d e) := s in
      let tmp :=
        add32 (add32 (add32 (add32 (rotl 5 a) (f t b c d)) e) w) (K t) in
      rounds (S t) ws' (St tmp a (rotl 30 b) c d)
  end.

Definition compress (s : state) (block : list Z) : state :=
  let '(St a b c d e) := rounds 0 (schedule block) s in
  St (add32 (ha s) a) (add32 (hb s) b) (add32 (hc s) c)
     (add32 (hd s) d) (add32 (he s) e).

Definition digest (s : state) : list byte :=
  word_bytes (ha s) ++ word_bytes (hb s) ++ word_bytes (hc s)
  ++ word_bytes (hd s) ++ word_bytes (he s).

(** [h := sha1.New(); h.Write(msg); h.Sum(nil)] *)
Definition sum (msg : list byte) : list byte :=
  let ws := words (pad msg) in
  digest (fold_left compress (chunks 16 (List.length ws) ws) init).

End Sha1.

(** ** encoding/base64, [StdEncoding] (RFC 4648 with padding) *)

Module Base64.

Definition encodeStd : list byte :=
  bytes_of_string
    "ABCDEFGHIJKLMNOPQRSTUVWXYZabcdefghijklmnopqrstuvwxyz0123456789+/".

Definition enc (v : Z) : byte := nth (Z.to_nat (Z.land v 0x3F)) encodeStd x00.

Definition padChar : byte := "="%byte.

Fixpoint encode (src : list byte) : list byte :=
  match src with
  | [] => []
  | [b0] =>
      let v := Z.shiftl (int b0) 16 in
      [enc (Z.shiftr v 18); enc (Z.shiftr v 12); padChar; padChar]
  | [b0; b1] =>
      let v := Z.lor (Z.shiftl (int b0) 16) (Z.shiftl (int b1) 8) in
      [enc (Z.shiftr v 18); enc (Z.shiftr v 12); enc (Z.shiftr v 6); padChar]
  | b0 :: b1 :: b2 :: rest =>
      let v := Z.lor (Z.lor (Z.shiftl (int b0) 16) (Z.shiftl (int b1) 8))
                     (int b2) in
      enc (Z.shiftr v 18) :: enc (Z.shiftr v 12) :: enc (Z.shiftr v 6)
        :: enc v :: encode rest
  end.

Definition EncodeToString (src : list byte) : string :=
  string_of_list_byte (encode src).

End Base64.

Local Open Scope string_scope.
Local Open Scope list_scope.
Local Open Scope Z_scope.

(** ** net/http: the header map and what the handler reads from it *)

(** [http.Header] is [map[string][]string], keyed by canonical names. *)
Abbreviation Header := (gmap string (list string)).

Definition isLower (c : ascii) : bool :=
  (97 <=? nat_of_ascii c)%nat && (nat_of_ascii c <=? 122)%nat.
Definition isUpper (c : ascii) : bool :=
  (65 <=? nat_of_ascii c)%nat && (nat_of_ascii c <=? 90)%nat.
Definition isDigit (c : ascii) : bool :=
  (48 <=? nat_of_ascii c)%nat && (nat_of_ascii c <=? 57)%nat.

(** [textproto.validHeaderFieldByte]: the token characters of RFC 7230. *)
Definition validHeaderFieldByte (c : ascii) : bool :=
  isLower c || isUpper c || isDigit c
  || existsb (Ascii.eqb c) (list_ascii_of_string "!#$%&'*+-.^_`|~").

Fixpoint canonicalize (upper : bool) (s : string) : string :=
  match s with
  | EmptyString => EmptyString
  | String c rest =>
      let c' :=
        if upper && isLower c then ascii_of_nat (nat_of_ascii c - 32)
        else if negb upper && isUpper c then ascii_of_nat (nat_of_ascii c + 32)
        else c in
      String c' (canonicalize (Ascii.eqb c' "-") rest)
  end.

(** [textproto.CanonicalMIMEHeaderKey]: a name that is not a token is
    returned unchanged. *)
Definition CanonicalMIMEHeaderKey (s : string) : string :=
  if forallb validHeaderFieldByte (list_ascii_of_string s)
  then canonicalize true s else s.

(** [h.Get(key)]: the first value stored under the canonical key, or the
    empty string. *)
Definition Get (h : Header) (key : string) : string :=
  match h !! CanonicalMIMEHeaderKey key with
  | Some (v :: _) => v
  | _ => ""
  end.

(** [h.Set(key, value)] *)
Definition Set_ (h : Header) (key value : string) : Header :=
  <[CanonicalMIMEHeaderKey key := [value]]> h.

Definition StatusSwitchingProtocols : Z := 101.
Definition StatusBadRequest : Z := 400.
Definition StatusInternalServerError : Z := 500.

(** ** Errors *)

Inductive error : Type :=
| EOF                 (* io.EOF: nothing could be read *)
| ErrUnexpectedEOF    (* io.ErrUnexpectedEOF: a read stopped half way *)
| ErrFragmented       (* "fragmented frames not supported yet" *)
| ErrWrite.           (* the connection refused a write *)

(** ** Reading: [io.ReadFull] on the peer's bytes *)

(** The bytes the peer has sent and the server has not read yet. *)
Definition Reader : Type := list byte.

(** [io.ReadFull(r, buf)] with [len(buf) = n]: the buffer as the call leaves
    it, the error, the reader afterwards.  A short read leaves the tail of the
    buffer zeroed, as [make] allocated it. *)
Definition ReadFull (r : Reader) (n : nat) : list byte * option error * Reader :=
  if (n <=? List.length r)%nat then (firstn n r, None, skipn n r)
  else (r ++ repeat x00 (n - List.length r),
        Some (match r with [] => EOF | _ => ErrUnexpectedEOF end),
        []).

(** ** readFrame *)

Definition finBit : byte := as_byte (Z.shiftl 1 7).
Definition maskedBit : byte := as_byte (Z.shiftl 1 7).

(** [for i := range payloadLen { payload[i] ^= maskingKey[i%4] }],
    entered at index [i]. *)
Fixpoint xorMask (i : nat) (maskingKey payload : list byte) : list byte :=
  match payload with
  | [] => []
  | b :: rest =>
      bxor b (nth (i mod 4) maskingKey x00) :: xorMask (S i) maskingKey rest
  end.

(** The named results of [readFrame]. *)
Record Result : Type := mkResult {
  opcode : byte;
  payload : list byte;
  err : option error
}.

Definition readFrame (r : Reader) : Result * Reader :=
  let '(header, e, r) := ReadFull r 2 in
  match e with
  | Some e => (mkResult x00 [] (Some e), r)
  | None =>
  let fin := negb (byte_eqb (band (nth 0 header x00) finBit) x00) in
  let opcode := band (nth 0 header x00) x0f in
  let masked := negb (byte_eqb (band (nth 1 header x00) maskedBit) x00) in
  let payloadLen := int (band (nth 1 header x00) x7f) in
  if byte_eqb opcode x08 then (mkResult opcode [] None, r) else
  let '(payloadLen, e, r) :=
    if payloadLen =? 126 then
      let '(ext, e, r) := ReadFull r 2 in
      (Z.lor (Z.shiftl (int (nth 0 ext x00)) 8) (int (nth 1 ext x00)), e, r)
    else if payloadLen =? 127 then
      let '(ext, e, r) := ReadFull r 8 in
      (Z.lor (Z.lor (Z.lor (Z.shiftl (int (nth 4 ext x00)) 24)
                           (Z.shiftl (int (nth 5 ext x00)) 16))
                    (Z.shiftl (int (nth 6 ext x00)) 8))
             (int (nth 7 ext x00)), e, r)
    else (payloadLen, None, r) in
  match e with
  | Some e => (mkResult opcode [] (Some e), r)
  | None =>
  let '(maskingKey, e, r) :=
    if masked then ReadFull r 4 else ([], None, r) in
  match e with
  | Some e => (mkResult opcode [] (Some e), r)
  | None =>
  let '(payload, e, r) := ReadFull r (Z.to_nat payloadLen) in
  match e with
  | Some e => (mkResult opcode payload (Some e), r)
  | None =>
  let payload := if masked then xorMask 0 maskingKey payload else payload in
  (mkResult opcode payload (if fin then None else Some ErrFragmented), r)
  end end end end.

(** ** Writing: [io.Writer] *)

Class Writer (W : Type) : Type :=
  Write : W -> list byte -> W * option error.

(** An in-memory buffer takes every write. *)
#[export] Instance Writer_buffer : Writer (list byte) :=
  fun buf p => (buf ++ p, None).

(** The server's end of the hijacked connection: what it has sent, how many
    more bytes the transport takes before it fails ([None]: no limit), and
    how often [Close] was called. *)
Record Conn : Type := mkConn {
  outbound : list byte;
  room : option nat;
  closed : nat
}.

#[export] Instance Writer_Conn : Writer Conn :=
  fun c p =>
    match room c with
    | None => (mkConn (outbound c ++ p) None (closed c), None)
    | Some k =>
        if (List.length p <=? k)%nat
        then (mkConn (outbound c ++ p) (Some (k - List.length p)%nat) (closed c),
              None)
        else (mkConn (outbound c ++ firstn k p) (Some O) (closed c),
              Some ErrWrite)
    end.

Definition Close (c : Conn) : Conn :=
  mkConn (outbound c) (room c) (S (closed c)).

(** ** writeFrame, writeCloseFrame *)

Definition writeFrame {W} `{Writer W} (w : W) (opcode : byte)
    (payload : list byte) : W * option error :=
  let header := [bor x80 opcode] in
  let payloadLen := Z.of_nat (List.length payload) in
  let header :=
    if payloadLen <? 126 then header ++ [as_byte payloadLen]
    else if payloadLen <=? 0xFFFF then
      header ++ [as_byte 126; as_byte (Z.shiftr payloadLen 8);
                 as_byte payloadLen]
    else
      header ++ [as_byte 127; as_byte 0; as_byte 0; as_byte 0; as_byte 0;
                 as_byte (Z.shiftr payloadLen 24);
                 as_byte (Z.shiftr payloadLen 16);
                 as_byte (Z.shiftr payloadLen 8); as_byte payloadLen] in
  let '(w, e) := Write w header in
  match e with
  | Some e => (w, Some e)
  | None =>
      let '(w, e) := Write w payload in
      match e with
      | Some e => (w, Some e)
      | None => (w, None)
      end
  end.

Definition writeCloseFrame {W} `{Writer W} (w : W) (code : Z)
    (reason : string) : W * option error :=
  let payload :=
    [as_byte (Z.shiftr code 8); as_byte code] ++ bytes_of_string reason in
  writeFrame w x08 payload.

(** ** The connection loop of websocketHandler *)

(** What the handler prints on standard output. *)
Inductive Line : Type :=
| ReadFrameError (e : error)                       (* "readFrame error:" *)
| ReceivedFrame (op : byte) (payload : list byte)  (* "Received frame: ..." *)
| ReceivedClose                  (* "Received close frame, closing connection" *)
| WriteFrameError (e : error).                     (* "writeFrame error:" *)

(** The state the loop works on: the buffered reader [rw], the connection
    [conn] the replies are written to, and the console. *)
Record Session : Type := mkSession {
  rw : Reader;
  conn : Conn;
  stdout : list Line
}.

Inductive Flow : Type := Continue | Return.

(** One pass through the body of [for { ... }]. *)
Definition step (s : Session) : Flow * Session :=
  let '(res, r) := readFrame (rw s) in
  match err res with
  | Some e => (Return, mkSession r (conn s) (stdout s ++ [ReadFrameError e]))
  | None =>
      let out := stdout s ++ [ReceivedFrame (opcode res) (payload res)] in
      if byte_eqb (opcode res) x08 then
        let out := out ++ [ReceivedClose] in
        let '(c, e) := writeCloseFrame (conn s) 0x8 "bye" in
        match e with
        | Some e => (Return, mkSession r c (out ++ [WriteFrameError e]))
        | None => (Return, mkSession r c out)
        end
      else
        let '(c, e) := writeFrame (conn s) (opcode res) (payload res) in
        match e with
        | Some e => (Return, mkSession r c (out ++ [WriteFrameError e]))
        | None => (Continue, mkSession r c out)
        end
  end.

(** The value of [a] together with the equation that says so, for the
    termination argument of the loop. *)
Definition inspect {A : Type} (a : A) : {b : A | a = b} := exist _ a eq_refl.

(** [for { ... }]: the loop runs until a pass returns.  It ends on every
    finite input, since a pass that continues has consumed a frame. *)
Equations? serve (s : Session) : Session by wf (List.length (rw s)) lt :=
  serve s with inspect (step s) => {
    | exist _ (pair Return s') _ := s';
    | exist _ (pair Continue s') Hs := serve s' }.
Proof.
  (* A pass that continues has read a frame without error, so at least the
     two header bytes are gone from the reader. *)
  assert (Hc : err (fst (readFrame (rw s))) = None ->
               (List.length (snd (readFrame (rw s))) < List.length (rw s))%nat).
  { unfold readFrame, ReadFull.
    destruct (rw s) as [|h0 [|h1 r]]; simpl; try discriminate.
    intros _.
    repeat match goal with
           | |- context [if ?c then _ else _] => destruct c; simpl
           end;
    repeat rewrite skipn_nil; rewrite ?length_skipn; simpl; try lia. }
  unfold step in Hs. destruct (readFrame (rw s)) as [res r]. simpl in Hc.
  destruct (err res); [discriminate|].
  destruct (byte_eqb (opcode res) x08).
  - destruct (writeCloseFrame _ _ _) as [c [e|]]; discriminate.
  - destruct (writeFrame _ _ _) as [c [e|]]; [discriminate|].
    injection Hs as <-. simpl. auto.
Qed.

(** [defer conn.Close()] followed by the loop: what the handler does with a
    connection it has taken over.  The deferred [Close] runs on every way
    out of the loop. *)
Definition session (s : Session) : Session :=
  let s := serve s in
  mkSession (rw s) (Close (conn s)) (stdout s).

(** ** websocketHandler *)

Definition magicGUID : string := "258EAFA5-E914-47DA-95CA-C5AB0DC85B11".

(** How a call of the handler ends.
    - [HttpError code msg]: [http.Error(w, msg, code)] before anything was
      written; the connection stays with the HTTP server.
    - [HijackFailed h]: the 101 response with headers [h] was written, then
      [Hijack] failed and the handler called [http.Error] with status 500;
      no connection was taken over.
    - [Hijacked h s]: the 101 response with headers [h] was written, the
      connection was taken over, and [s] is the session when the handler
      returns.
    [h] is the response's header map as the handler left it; headers the
    HTTP server adds by itself when it writes the response are not part of
    it. *)
Inductive Outcome : Type :=
| HttpError (code : Z) (msg : string)
| HijackFailed (h : Header)
| Hijacked (h : Header) (s : Session).

(** [hijack] is what [http.NewResponseController(w).Hijack()] gives:
    [None] for an error, otherwise the connection with its buffered reader. *)
Definition websocketHandler (header : Header) (hijack : option Session)
    : Outcome :=
  if negb (String.eqb (Get header "Connection") "Upgrade")
     || negb (String.eqb (Get header "Upgrade") "websocket")
  then HttpError StatusBadRequest "Not a websocket upgrade request"
  else
    let secWebSocketKey := Get header "Sec-WebSocket-Key" in
    if String.eqb secWebSocketKey ""
    then HttpError StatusBadRequest "Bad WebSocket handshake"
    else
      let acceptKey :=
        Base64.EncodeToString
          (Sha1.sum (bytes_of_string (String.append secWebSocketKey magicGUID))) in
      let w := Set_ ∅ "Upgrade" "websocket" in
      let w := Set_ w "Connection" "Upgrade" in
      let w := Set_ w "Sec-WebSocket-Accept" acceptKey in
      match hijack with
      | None => HijackFailed w
      | Some s => Hijacked w (session s)
      end.

(** ** Vocabulary for the statements below *)

(** The fields [readFrame] takes from the two header bytes. *)
Definition isFin (h0 : byte) : bool := negb (byte_eqb (band h0 finBit) x00).
Definition isMasked (h1 : byte) : bool :=
  negb (byte_eqb (band h1 maskedBit) x00).
Definition len7 (h1 : byte) : Z := int (band h1 x7f).

(** The big-endian values [readFrame] computes from the extension bytes. *)
Definition be16 (ext : list byte) : Z :=
  Z.lor (Z.shiftl (int (nth 0 ext x00)) 8) (int (nth 1 ext x00)).
Definition be32_low (ext : list byte) : Z :=
  Z.lor (Z.lor (Z.lor (Z.shiftl (int (nth 4 ext x00)) 24)
                      (Z.shiftl (int (nth 5 ext x00)) 16))
               (Z.shiftl (int (nth 6 ext x00)) 8))
        (int (nth 7 ext x00)).

(** A stream carries one whole frame when, after the header bytes [h0 h1],
    it holds the extension bytes [ext], the masking key [key] and the payload
    bytes [data] in the sizes the header announces. *)
Definition extSize (h1 : byte) : nat :=
  if len7 h1 =? 126 then 2%nat else if len7 h1 =? 127 then 8%nat else 0%nat.
Definition keySize (h1 : byte) : nat := if isMasked h1 then 4%nat else 0%nat.
Definition declaredLen (h1 : byte) (ext : list byte) : Z :=
  if len7 h1 =? 126 then be16 ext
  else if len7 h1 =? 127 then be32_low ext
  else len7 h1.
Definition framed (h1 : byte) (ext key data : list byte) : bool :=
  (List.length ext =? extSize h1)%nat
  && (List.length key =? keySize h1)%nat
  && (Z.of_nat (List.length data) =? declaredLen h1 ext).

(** The bytes [writeFrame] sends for one frame. *)
Definition encodeFrame (opcode : byte) (payload : list byte) : list byte :=
  fst (writeFrame ([] : list byte) opcode payload).

(** The header bytes [writeFrame] builds for a payload of [n] bytes, after
    the first byte. *)
Definition lengthField (n : Z) : list byte :=
  if n <? 126 then [as_byte n]
  else if n <=? 0xFFFF then [as_byte 126; as_byte (Z.shiftr n 8); as_byte n]
  else [as_byte 127; as_byte 0; as_byte 0; as_byte 0; as_byte 0;
        as_byte (Z.shiftr n 24); as_byte (Z.shiftr n 16);
        as_byte (Z.shiftr n 8); as_byte n].

(** The payload [readFrame] returns. *)
Definition decodedPayload (x : Result * Reader) : list byte := payload (fst x).

(** The connection takes [n] more bytes without a write error. *)
Definition accepts (c : Conn) (n : nat) : bool :=
  match room c with
  | None => true
  | Some k => (n <=? k)%nat
  end.

(** The spec's names for the two rejections of the handshake. *)
Definition NotAnUpgradeRequest : Outcome :=
  HttpError StatusBadRequest "Not a websocket upgrade request".
Definition MissingHandshakeKey : Outcome :=
  HttpError StatusBadRequest "Bad WebSocket handshake".

(** The headers of the 101 response, when one was written. *)
Definition switched (o : Outcome) : option Header :=
  match o with
  | HttpError _ _ => None
  | HijackFailed h => Some h
  | Hijacked h _ => Some h
  end.

(** The session, when the connection was taken over. *)
Definition takenOver (o : Outcome) : option Session :=
  match o with
  | Hijacked _ s => Some s
  | _ => None
  end.

(** All 256 bytes, to settle facts about single bytes by enumeration. *)
Definition all_bytes : list byte :=
  map (fun n => as_byte (Z.of_nat n)) (seq 0 256).

(** ** Whole frames, for statements about sequences of frames *)

(** The five parts of one frame as the client put it on the wire. *)
Record Frame : Type := mkFrame {
  f_h0 : byte;
  f_h1 : byte;
  f_ext : list byte;
  f_key : list byte;
  f_data : list byte
}.

Definition wire (f : Frame) : list byte :=
  f_h0 f :: f_h1 f :: f_ext f ++ f_key f ++ f_data f.

Definition frameOpcode (f : Frame) : byte := band (f_h0 f) x0f.

Definition framePayload (f : Frame) : list byte :=
  if isMasked (f_h1 f) then xorMask 0 (f_key f) (f_data f) else f_data f.

(** A frame the loop echoes: whole, fin set, opcode other than close. *)
Definition echoable (f : Frame) : bool :=
  isFin (f_h0 f)
  && negb (byte_eqb (frameOpcode f) x08)
  && framed (f_h1 f) (f_ext f) (f_key f) (f_data f).

(** What the loop sends back and prints for an echoable frame. *)
Definition echoOf (f : Frame) : list byte :=
  encodeFrame (frameOpcode f) (framePayload f).
Definition logOf (f : Frame) : Line :=
  ReceivedFrame (frameOpcode f) (framePayload f).

(** The frame the loop answers a close frame with. *)
Definition closeReply : list byte :=
  encodeFrame x08 ([x00; x08] ++ bytes_of_string "bye").

(** ** The handshake-only version of the handler (unnamed/part_000) *)

Module Part000.

(** How a call of this handler ends: an [http.Error], or the 101 response
    with headers [h], after which it prints "WebSocket handshake completed"
    and returns. *)
Inductive Outcome : Type :=
| HttpError (code : Z) (msg : string)
| Completed (h : Header).

Definition websocketHandler (header : Header) : Outcome :=
  if negb (String.eqb (Get header "Connection") "Upgrade")
     || negb (String.eqb (Get header "Upgrade") "websocket")
  then HttpError StatusBadRequest "Not a websocket upgrade request"
  else
    let secWebSocketKey := Get header "Sec-WebSocket-Key" in
    if String.eqb secWebSocketKey ""
    then HttpError StatusBadRequest "Bad WebSocket handshake"
    else
      let acceptKey :=
        Base64.EncodeToString
          (Sha1.sum
             (bytes_of_string
                (String.append secWebSocketKey
                   "258EAFA5-E914-47DA-95CA-C5AB0DC85B11"))) in
      let w := Set_ ∅ "Upgrade" "websocket" in
      let w := Set_ w "Connection" "Upgrade" in
      let w := Set_ w "Sec-WebSocket-Accept" acceptKey in
      Completed w.

End Part000.

(** * Properties *)

(** ** The library models against published vectors *)

Example sha1_abc :
  Sha1.sum (bytes_of_string "abc")
  = [xa9; x99; x3e; x36; x47; x06; x81; x6a; xba; x3e;
     x25; x71; x78; x50; xc2; x6c; x9c; xd0; xd8; x9d].
Proof. vm_compute. reflexivity. Qed.

Example sha1_empty :
  Sha1.sum []
  = [xda; x39; xa3; xee; x5e; x6b; x4b; x0d; x32; x55;
     xbf; xef; x95; x60; x18; x90; xaf; xd8; x07; x09].
Proof. vm_compute. reflexivity. Qed.

Example sha1_two_blocks :
  Sha1.sum
    (bytes_of_string "abcdbcdecdefdefgefghfghighijhijkijkljklmklmnlmnomnopnopq")
  = [x84; x98; x3e; x44; x1c; x3b; xd2; x6e; xba; xae;
     x4a; xa1; xf9; x51; x29; xe5; xe5; x46; x70; xf1].
Proof. vm_compute. reflexivity. Qed.

Example base64_rfc4648 :
  Base64.EncodeToString (bytes_of_string "") = ""
  /\ Base64.EncodeToString (bytes_of_string "f") = "Zg=="
  /\ Base64.EncodeToString (bytes_of_string "fo") = "Zm8="
  /\ Base64.EncodeToString (bytes_of_string "foo") = "Zm9v"
  /\ Base64.EncodeToString (bytes_of_string "foobar") = "Zm9vYmFy".
Proof. vm_compute. repeat split. Qed.

Example canonical_key :
  CanonicalMIMEHeaderKey "Sec-WebSocket-Key" = "Sec-Websocket-Key"
  /\ CanonicalMIMEHeaderKey "connection" = "Connection".
Proof. vm_compute. repeat split. Qed.

(** ** Bytes and big-endian fields *)

Lemma int_range (b : byte) : 0 <= int b < 256.
Proof.
  unfold int. pose proof (Byte.to_N_bounded b) as Hb.
  split; [apply N2Z.is_nonneg|]. apply N.lt_succ_r in Hb. lia.
Qed.

Lemma int_as_byte (z : Z) : int (as_byte z) = z mod 256.
Proof.
  unfold int, as_byte.
  assert (Hr : 0 <= z mod 256 < 256) by (apply Z.mod_pos_bound; lia).
  destruct (Byte.of_N (Z.to_N (z mod 256))) as [b|] eqn:Hof.
  - apply Byte.to_of_N in Hof. rewrite Hof. rewrite Z2N.id; lia.
  - exfalso. pose proof (Byte.to_of_N_option_map (Z.to_N (z mod 256))) as Hm.
    rewrite Hof in Hm. simpl in Hm.
    destruct (N.leb_spec (Z.to_N (z mod 256)) 255); [discriminate|lia].
Qed.

Lemma as_byte_int (b : byte) : as_byte (int b) = b.
Proof.
  unfold as_byte. pose proof (int_range b) as Hr.
  rewrite Z.mod_small by lia. unfold int. rewrite N2Z.id.
  now rewrite Byte.of_to_N.
Qed.

Lemma int_inj (a b : byte) : int a = int b -> a = b.
Proof. intros H. rewrite <- (as_byte_int a), <- (as_byte_int b). now rewrite H. Qed.

Lemma int_small (b : byte) : int b mod 2 ^ 8 = int b.
Proof. apply Z.mod_small. change (2 ^ 8) with 256. apply int_range. Qed.

Lemma int_bits_high (b : byte) (i : Z) : 8 <= i -> Z.testbit (int b) i = false.
Proof.
  intros Hi. rewrite <- int_small. apply Z.mod_pow2_bits_high. lia.
Qed.

Lemma int_band (a b : byte) : int (band a b) = Z.land (int a) (int b).
Proof.
  unfold band. rewrite int_as_byte. change 256 with (2 ^ 8).
  rewrite <- Z.land_ones, <- Z.land_assoc, Z.land_ones, int_small by lia.
  reflexivity.
Qed.

Lemma int_bor (a b : byte) : int (bor a b) = Z.lor (int a) (int b).
Proof.
  unfold bor. rewrite int_as_byte. change 256 with (2 ^ 8).
  apply Z.bits_inj'. intros i Hi.
  rewrite Z.testbit_mod_pow2, Z.lor_spec by lia.
  destruct (Z.ltb_spec i 8); [reflexivity|].
  now rewrite !int_bits_high by lia.
Qed.

Lemma int_bxor (a b : byte) : int (bxor a b) = Z.lxor (int a) (int b).
Proof.
  unfold bxor. rewrite int_as_byte. change 256 with (2 ^ 8).
  apply Z.bits_inj'. intros i Hi.
  rewrite Z.testbit_mod_pow2, Z.lxor_spec by lia.
  destruct (Z.ltb_spec i 8); [reflexivity|].
  now rewrite !int_bits_high by lia.
Qed.

Lemma bxor_involutive (a k : byte) : bxor (bxor a k) k = a.
Proof.
  apply int_inj. rewrite !int_bxor, Z.lxor_assoc, Z.lxor_nilpotent.
  apply Z.lxor_0_r.
Qed.

Lemma byte_eqb_eq (a b : byte) : byte_eqb a b = true <-> a = b.
Proof.
  unfold byte_eqb. split; [apply Byte.byte_dec_bl | apply Byte.byte_dec_lb].
Qed.

Lemma byte_eqb_neq (a b : byte) : byte_eqb a b = false <-> a <> b.
Proof.
  rewrite <- byte_eqb_eq. destruct (byte_eqb a b); split; congruence.
Qed.

Lemma bits_above (n k i : Z) :
  0 <= n < 2 ^ k -> 0 <= k <= i -> Z.testbit n i = false.
Proof.
  intros Hn Hk. rewrite <- (Z.mod_small n (2 ^ k)) by lia.
  apply Z.mod_pow2_bits_high. lia.
Qed.

(** ** Facts about single bytes, by enumeration *)

Lemma all_bytes_complete (b : byte) : In b all_bytes.
Proof.
  unfold all_bytes. apply in_map_iff. exists (Z.to_nat (int b)).
  pose proof (int_range b) as Hr. split.
  - rewrite Z2Nat.id by lia. apply as_byte_int.
  - apply in_seq. lia.
Qed.

Lemma byte_forall (P : byte -> bool) :
  forallb P all_bytes = true -> forall b, P b = true.
Proof.
  intros H b. rewrite forallb_forall in H. apply H, all_bytes_complete.
Qed.

Lemma implb_true (a b : bool) : implb a b = true -> a = true -> b = true.
Proof. destruct a, b; simpl; congruence. Qed.

(** The decoder looks at the first byte through the masks 0x80 and 0x0F
    only. *)
Lemma rsv_fin (h0 : byte) : band (band h0 x8f) finBit = band h0 finBit.
Proof.
  apply byte_eqb_eq.
  apply (byte_forall (fun h => byte_eqb (band (band h x8f) finBit) (band h finBit))).
  vm_compute. reflexivity.
Qed.

Lemma rsv_opcode (h0 : byte) : band (band h0 x8f) x0f = band h0 x0f.
Proof.
  apply byte_eqb_eq.
  apply (byte_forall (fun h => byte_eqb (band (band h x8f) x0f) (band h x0f))).
  vm_compute. reflexivity.
Qed.

(** The first byte [writeFrame] sends: fin set, the low four bits of the
    opcode. *)
Lemma sent_fin (op : byte) : isFin (bor x80 op) = true.
Proof.
  apply (byte_forall (fun o => isFin (bor x80 o))). vm_compute. reflexivity.
Qed.

Lemma sent_opcode (op : byte) :
  int op < 16 -> band (bor x80 op) x0f = op.
Proof.
  intros H. apply byte_eqb_eq.
  apply (implb_true (int op <? 16)); [|now apply Z.ltb_lt].
  apply (byte_forall
           (fun o => implb (int o <? 16) (byte_eqb (band (bor x80 o) x0f) o))).
  vm_compute. reflexivity.
Qed.

Lemma opcode_lt16 (h0 : byte) : int (band h0 x0f) < 16.
Proof.
  apply Z.ltb_lt.
  apply (byte_forall (fun h => int (band h x0f) <? 16)).
  vm_compute. reflexivity.
Qed.

(** A length byte below 128 has the mask bit clear and is its own length
    field. *)
Lemma small_unmasked (h1 : byte) : int h1 < 128 -> isMasked h1 = false.
Proof.
  intros H. apply negb_true_iff.
  apply (implb_true (int h1 <? 128)); [|now apply Z.ltb_lt].
  apply (byte_forall (fun h => implb (int h <? 128) (negb (isMasked h)))).
  vm_compute. reflexivity.
Qed.

Lemma small_len7 (h1 : byte) : int h1 < 128 -> len7 h1 = int h1.
Proof.
  intros H. apply Z.eqb_eq.
  apply (implb_true (int h1 <? 128)); [|now apply Z.ltb_lt].
  apply (byte_forall (fun h => implb (int h <? 128) (len7 h =? int h))).
  vm_compute. reflexivity.
Qed.

Lemma len7_range (h1 : byte) : 0 <= len7 h1 < 128.
Proof.
  assert (H : (0 <=? len7 h1) && (len7 h1 <? 128) = true).
  { apply (byte_forall (fun h => (0 <=? len7 h) && (len7 h <? 128))).
    vm_compute. reflexivity. }
  apply andb_true_iff in H. destruct H as [H1 H2].
  apply Z.leb_le in H1. apply Z.ltb_lt in H2. lia.
Qed.

(** ** Reading *)

Lemma ReadFull_app (a r : list byte) (n : nat) :
  List.length a = n -> ReadFull (a ++ r) n = (a, None, r).
Proof.
  intros <-. unfold ReadFull.
  rewrite length_app.
  destruct (Nat.leb_spec (List.length a) (List.length a + List.length r)); [|lia].
  rewrite firstn_app, Nat.sub_diag, firstn_all, skipn_app, Nat.sub_diag,
    skipn_all. simpl. now rewrite app_nil_r.
Qed.

Lemma ReadFull_ok (r : Reader) (n : nat) (buf : list byte) (r' : Reader) :
  ReadFull r n = (buf, None, r') ->
  r = buf ++ r' /\ List.length buf = n.
Proof.
  unfold ReadFull. destruct (Nat.leb_spec n (List.length r)); [|discriminate].
  intros [= <- <-]. split.
  - symmetry. apply firstn_skipn.
  - apply firstn_length_le. assumption.
Qed.

Lemma xorMask_length (key payload : list byte) (i : nat) :
  List.length (xorMask i key payload) = List.length payload.
Proof.
  revert i. induction payload as [|b rest IH]; intros i; simpl; auto.
Qed.

(** What [readFrame] does after the header bytes of a frame that is not a
    close frame, in the words of the vocabulary above. *)
Lemma readFrame_header (h0 h1 : byte) (r : Reader) :
  band h0 x0f <> x08 ->
  readFrame (h0 :: h1 :: r) =
    let '(payloadLen, e, r) :=
      if len7 h1 =? 126 then
        let '(ext, e, r) := ReadFull r 2 in (be16 ext, e, r)
      else if len7 h1 =? 127 then
        let '(ext, e, r) := ReadFull r 8 in (be32_low ext, e, r)
      else (len7 h1, None, r) in
    match e with
    | Some e => (mkResult (band h0 x0f) [] (Some e), r)
    | None =>
      let '(maskingKey, e, r) :=
        if isMasked h1 then ReadFull r 4 else ([], None, r) in
      match e with
      | Some e => (mkResult (band h0 x0f) [] (Some e), r)
      | None =>
        let '(payload, e, r) := ReadFull r (Z.to_nat payloadLen) in
        match e with
        | Some e => (mkResult (band h0 x0f) payload (Some e), r)
        | None =>
          (mkResult (band h0 x0f)
             (if isMasked h1 then xorMask 0 maskingKey payload else payload)
             (if isFin h0 then None else Some ErrFragmented), r)
        end
      end
    end.
Proof.
  intros Hop. apply byte_eqb_neq in Hop.
  unfold readFrame. change (ReadFull (h0 :: h1 :: r) 2) with ([h0; h1], @None error, r).
  cbv beta iota zeta. change (nth 0 [h0; h1] x00) with h0.
  change (nth 1 [h0; h1] x00) with h1. rewrite Hop.
  reflexivity.
Qed.

(** Decoding a stream that carries one whole frame, close frames apart:
    the opcode, the unmasked payload, the fragmentation error when fin is
    clear, and the stream left exactly behind the frame. *)
Lemma readFrame_frame (h0 h1 : byte) (ext key data rest : list byte) :
  band h0 x0f <> x08 ->
  framed h1 ext key data = true ->
  readFrame (h0 :: h1 :: ext ++ key ++ data ++ rest) =
    (mkResult (band h0 x0f)
       (if isMasked h1 then xorMask 0 key data else data)
       (if isFin h0 then None else Some ErrFragmented),
     rest).
Proof.
  intros Hop Hf. rewrite readFrame_header by assumption.
  unfold framed in Hf. apply andb_true_iff in Hf. destruct Hf as [Hf Hd].
  apply andb_true_iff in Hf. destruct Hf as [He Hk].
  apply Nat.eqb_eq in He, Hk. apply Z.eqb_eq in Hd.
  unfold extSize in He. unfold declaredLen in Hd. unfold keySize in Hk.
  assert (Hread : forall n, Z.of_nat (List.length data) = n ->
            ReadFull (data ++ rest) (Z.to_nat n) = (data, None, rest)).
  { intros n <-. apply ReadFull_app. now rewrite Nat2Z.id. }
  destruct (len7 h1 =? 126); [|destruct (len7 h1 =? 127)].
  - rewrite (ReadFull_app ext _ 2 He).
    destruct (isMasked h1).
    + rewrite (ReadFull_app key _ 4 Hk), (Hread _ Hd). reflexivity.
    + destruct key; [|discriminate]. simpl app. rewrite (Hread _ Hd). reflexivity.
  - rewrite (ReadFull_app ext _ 8 He).
    destruct (isMasked h1).
    + rewrite (ReadFull_app key _ 4 Hk), (Hread _ Hd). reflexivity.
    + destruct key; [|discriminate]. simpl app. rewrite (Hread _ Hd). reflexivity.
  - destruct ext; [|discriminate]. simpl app.
    destruct (isMasked h1).
    + rewrite (ReadFull_app key _ 4 Hk), (Hread _ Hd). reflexivity.
    + destruct key; [|discriminate]. simpl app. rewrite (Hread _ Hd). reflexivity.
Qed.

Lemma readFrame_close (h0 h1 : byte) (rest : list byte) :
  band h0 x0f = x08 ->
  readFrame (h0 :: h1 :: rest) = (mkResult x08 [] None, rest).
Proof.
  intros Hop. unfold readFrame.
  change (ReadFull (h0 :: h1 :: rest) 2) with ([h0; h1], @None error, rest).
  cbv beta iota zeta. change (nth 0 [h0; h1] x00) with h0. rewrite Hop.
  reflexivity.
Qed.

(** A stream too short for the header gives a read error and opcode 0. *)
Lemma readFrame_short (r : Reader) :
  (List.length r < 2)%nat ->
  exists e, readFrame r = (mkResult x00 [] (Some e), []).
Proof.
  intros H. destruct r as [|h0 [|h1 r]]; simpl in H; try lia.
  - exists EOF. reflexivity.
  - exists ErrUnexpectedEOF. reflexivity.
Qed.

(** ** Big-endian fields as numbers *)

Lemma lor_disjoint (x y k : Z) :
  0 <= k -> x mod 2 ^ k = 0 -> 0 <= y < 2 ^ k -> Z.lor x y = x + y.
Proof.
  intros Hk Hx Hy. rewrite <- Z.add_lor_land.
  assert (H0 : Z.land x y = 0); [|lia].
  apply Z.bits_inj'. intros i Hi. rewrite Z.land_spec, Z.bits_0.
  destruct (Z.ltb_spec i k).
  - rewrite <- (Z.mod_pow2_bits_low x k i), Hx, Z.bits_0 by lia. reflexivity.
  - rewrite (bits_above y k i) by lia. apply andb_false_r.
Qed.

(** [hi<<8 | lo] on two bytes. *)
Lemma lor_bytes2 (a b : byte) :
  Z.lor (Z.shiftl (int a) 8) (int b) = int a * 256 + int b.
Proof.
  pose proof (int_range a). pose proof (int_range b).
  rewrite Z.shiftl_mul_pow2 by lia. change (2 ^ 8) with 256.
  apply (lor_disjoint _ _ 8); [lia| |change (2 ^ 8) with 256; lia].
  change (2 ^ 8) with 256. apply Z_mod_mult.
Qed.

(** [a<<24 | b<<16 | c<<8 | d] on four bytes. *)
Lemma lor_bytes4 (a b c d : byte) :
  Z.lor (Z.lor (Z.lor (Z.shiftl (int a) 24) (Z.shiftl (int b) 16))
               (Z.shiftl (int c) 8)) (int d)
  = int a * 2 ^ 24 + int b * 2 ^ 16 + int c * 2 ^ 8 + int d.
Proof.
  pose proof (int_range a). pose proof (int_range b).
  pose proof (int_range c). pose proof (int_range d).
  rewrite !Z.shiftl_mul_pow2 by lia.
  rewrite (lor_disjoint (int a * 2 ^ 24) (int b * 2 ^ 16) 24); try lia.
  2: apply Z_mod_mult.
  rewrite (lor_disjoint _ (int c * 2 ^ 8) 16); try lia.
  2: { replace (int a * 2 ^ 24 + int b * 2 ^ 16)
         with ((int a * 2 ^ 8 + int b) * 2 ^ 16) by lia.
       apply Z_mod_mult. }
  apply (lor_disjoint _ _ 8); try lia.
  replace (int a * 2 ^ 24 + int b * 2 ^ 16 + int c * 2 ^ 8)
    with ((int a * 2 ^ 16 + int b * 2 ^ 8 + int c) * 2 ^ 8) by lia.
  apply Z_mod_mult.
Qed.

Lemma be16_value (e0 e1 : byte) (tl : list byte) :
  be16 (e0 :: e1 :: tl) = int e0 * 256 + int e1.
Proof. unfold be16. cbn [nth]. apply lor_bytes2. Qed.

Lemma be32_low_value (e0 e1 e2 e3 e4 e5 e6 e7 : byte) (tl : list byte) :
  be32_low (e0 :: e1 :: e2 :: e3 :: e4 :: e5 :: e6 :: e7 :: tl)
  = int e4 * 2 ^ 24 + int e5 * 2 ^ 16 + int e6 * 2 ^ 8 + int e7.
Proof. unfold be32_low. cbn [nth]. apply lor_bytes4. Qed.

(** The bytes [byte(n>>8), byte(n)] hold [n] when it fits 16 bits, and
    [byte(n>>24), ..., byte(n)] hold the low 32 bits of [n]. *)
Lemma be16_arith (n : Z) :
  0 <= n <= 0xFFFF ->
  int (as_byte (Z.shiftr n 8)) * 256 + int (as_byte n) = n.
Proof.
  intros Hn. rewrite !int_as_byte, !Z.shiftr_div_pow2 by lia.
  change (2 ^ 8) with 256. Z.div_mod_to_equations. lia.
Qed.

Lemma be32_arith (n : Z) :
  0 <= n ->
  int (as_byte (Z.shiftr n 24)) * 2 ^ 24 + int (as_byte (Z.shiftr n 16)) * 2 ^ 16
  + int (as_byte (Z.shiftr n 8)) * 2 ^ 8 + int (as_byte n) = n mod 2 ^ 32.
Proof.
  intros Hn. rewrite !int_as_byte, !Z.shiftr_div_pow2 by lia.
  change (2 ^ 24) with 16777216. change (2 ^ 16) with 65536.
  change (2 ^ 8) with 256. change (2 ^ 32) with 4294967296.
  Z.div_mod_to_equations. lia.
Qed.

(** Whatever the header and the extension bytes say, the length
    [readFrame] arrives at is below 4 GiB. *)
Lemma declaredLen_bound (h1 : byte) (ext : list byte) :
  0 <= declaredLen h1 ext < 2 ^ 32.
Proof.
  assert (Hb : forall b, 0 <= int (nth b ext x00) < 256)
    by (intros; apply int_range).
  unfold declaredLen. destruct (len7 h1 =? 126); [|destruct (len7 h1 =? 127)].
  - unfold be16. rewrite lor_bytes2.
    pose proof (Hb 0%nat). pose proof (Hb 1%nat). lia.
  - unfold be32_low. rewrite lor_bytes4.
    pose proof (Hb 4%nat). pose proof (Hb 5%nat).
    pose proof (Hb 6%nat). pose proof (Hb 7%nat). lia.
  - pose proof (len7_range h1). lia.
Qed.

(** ** Writing *)

Lemma encodeFrame_eq (op : byte) (payload : list byte) :
  encodeFrame op payload
  = bor x80 op :: lengthField (Z.of_nat (List.length payload)) ++ payload.
Proof.
  unfold encodeFrame, writeFrame, lengthField, Write, Writer_buffer.
  destruct (Z.of_nat (List.length payload) <? 126);
    [|destruct (Z.of_nat (List.length payload) <=? 0xFFFF)]; reflexivity.
Qed.

Lemma writeFrame_buffer (buf : list byte) (op : byte) (payload : list byte) :
  writeFrame buf op payload = (buf ++ encodeFrame op payload, None).
Proof.
  rewrite encodeFrame_eq.
  unfold writeFrame, lengthField, Write, Writer_buffer.
  destruct (Z.of_nat (List.length payload) <? 126);
    [|destruct (Z.of_nat (List.length payload) <=? 0xFFFF)];
    cbv beta iota zeta; rewrite <- app_assoc; reflexivity.
Qed.

Lemma Write_Conn_ok (c : Conn) (p : list byte) :
  accepts c (List.length p) = true ->
  Write c p
  = (mkConn (outbound c ++ p)
       (option_map (fun k => (k - List.length p)%nat) (room c)) (closed c),
     None).
Proof.
  unfold accepts, Write, Writer_Conn. destruct (room c) as [k|]; simpl.
  - intros ->. reflexivity.
  - reflexivity.
Qed.

Lemma accepts_le (c : Conn) (n m : nat) :
  (m <= n)%nat -> accepts c n = true -> accepts c m = true.
Proof.
  unfold accepts. destruct (room c) as [k|]; [|reflexivity].
  intros Hm Hn. apply Nat.leb_le in Hn. apply Nat.leb_le. lia.
Qed.

(** On a connection with room for the whole frame, [writeFrame] appends the
    frame and reports no error. *)
Lemma writeFrame_Conn_ok (c : Conn) (op : byte) (payload : list byte) :
  accepts c (List.length (encodeFrame op payload)) = true ->
  writeFrame c op payload
  = (mkConn (outbound c ++ encodeFrame op payload)
       (option_map (fun k => (k - List.length (encodeFrame op payload))%nat)
          (room c))
       (closed c),
     None).
Proof.
  rewrite encodeFrame_eq. intros Hacc.
  set (hdr := bor x80 op :: lengthField (Z.of_nat (List.length payload))).
  assert (Hw : writeFrame c op payload =
            let '(w, e) := Write c hdr in
            match e with
            | Some e => (w, Some e)
            | None => let '(w, e) := Write w payload in
                      match e with Some e => (w, Some e) | None => (w, None) end
            end).
  { unfold writeFrame, hdr, lengthField.
    destruct (Z.of_nat (List.length payload) <? 126);
      [|destruct (Z.of_nat (List.length payload) <=? 0xFFFF)]; reflexivity. }
  rewrite Hw. clear Hw.
  change (bor x80 op :: lengthField (Z.of_nat (List.length payload)) ++ payload)
    with (hdr ++ payload) in *.
  rewrite length_app in Hacc.
  rewrite Write_Conn_ok by (eapply accepts_le; [|exact Hacc]; lia).
  cbv beta iota zeta.
  rewrite Write_Conn_ok.
  - simpl. rewrite <- app_assoc. f_equal. f_equal.
    destruct (room c); simpl; [|reflexivity]. f_equal. rewrite length_app. lia.
  - unfold accepts in *. simpl. destruct (room c) as [k|]; simpl; [|reflexivity].
    apply Nat.leb_le in Hacc. apply Nat.leb_le.
    change (List.length hdr)
      with (S (List.length (lengthField (Z.of_nat (List.length payload))))) in Hacc.
    lia.
Qed.

(** ** Encoding then decoding *)

Lemma lengthField_framed (n : Z) (payload : list byte) :
  n = Z.of_nat (List.length payload) -> n < 2 ^ 32 ->
  exists h1 ext,
    lengthField n = h1 :: ext
    /\ isMasked h1 = false
    /\ framed h1 ext [] payload = true.
Proof.
  intros Hn Hlt. assert (H0 : 0 <= n) by lia.
  unfold lengthField.
  destruct (Z.ltb_spec n 126); [|destruct (Z.leb_spec n 0xFFFF)].
  - exists (as_byte n), [].
    assert (Hi : int (as_byte n) = n) by (rewrite int_as_byte; apply Z.mod_small; lia).
    assert (Hm : isMasked (as_byte n) = false) by (apply small_unmasked; lia).
    assert (Hl : len7 (as_byte n) = n) by (rewrite small_len7; lia).
    repeat split; [assumption|].
    unfold framed, extSize, keySize, declaredLen. rewrite Hm, Hl.
    destruct (Z.eqb_spec n 126); [lia|]. destruct (Z.eqb_spec n 127); [lia|].
    simpl. apply Z.eqb_eq. lia.
  - exists (as_byte 126), [as_byte (Z.shiftr n 8); as_byte n].
    repeat split.
    unfold framed, extSize, keySize, declaredLen.
    change (len7 (as_byte 126)) with 126. change (isMasked (as_byte 126)) with false.
    simpl. apply Z.eqb_eq. rewrite be16_value, be16_arith; lia.
  - exists (as_byte 127),
      [as_byte 0; as_byte 0; as_byte 0; as_byte 0; as_byte (Z.shiftr n 24);
       as_byte (Z.shiftr n 16); as_byte (Z.shiftr n 8); as_byte n].
    repeat split.
    unfold framed, extSize, keySize, declaredLen.
    change (len7 (as_byte 127)) with 127. change (isMasked (as_byte 127)) with false.
    simpl. apply Z.eqb_eq.
    rewrite be32_low_value, be32_arith, Z.mod_small; lia.
Qed.

(** What [writeFrame] sends decodes to the opcode and payload it was given,
    for every opcode of four bits other than close and every payload below
    4 GiB. *)
Lemma readFrame_encodeFrame (op : byte) (payload rest : list byte) :
  int op < 16 -> op <> x08 ->
  Z.of_nat (List.length payload) < 2 ^ 32 ->
  readFrame (encodeFrame op payload ++ rest) = (mkResult op payload None, rest).
Proof.
  intros Hop Hne Hlen. rewrite encodeFrame_eq.
  destruct (lengthField_framed _ payload eq_refl Hlen) as (h1 & ext & -> & Hm & Hf).
  pose proof (readFrame_frame (bor x80 op) h1 ext [] payload rest) as H.
  rewrite sent_opcode, sent_fin, Hm in H by assumption.
  simpl in H |- *. rewrite <- !app_assoc. apply H; assumption.
Qed.

(** ** The loop *)

Lemma serve_step (s : Session) :
  serve s = match step s with
            | (Return, s') => s'
            | (Continue, s') => serve s'
            end.
Proof.
  rewrite serve_equation_1.
  assert (H : forall (x : Flow * Session) (e : step s = x),
             serve_unfold_clause_1 s (exist _ x e)
             = match x with
               | (Return, s') => s'
               | (Continue, s') => serve s'
               end).
  { intros [[|] s'] e; reflexivity. }
  apply H.
Qed.

(** [readFrame] reports the close opcode only for a close frame it read
    without error, with an empty payload. *)
Lemma readFrame_opcode_close (r : Reader) :
  opcode (fst (readFrame r)) = x08 ->
  exists h0 h1 rest,
    r = h0 :: h1 :: rest /\ band h0 x0f = x08
    /\ readFrame r = (mkResult x08 [] None, rest).
Proof.
  intros Hop. destruct r as [|h0 [|h1 rest]]; try discriminate.
  exists h0, h1, rest.
  destruct (byte_eqb (band h0 x0f) x08) eqn:E.
  - apply byte_eqb_eq in E. auto using readFrame_close.
  - exfalso. apply byte_eqb_neq in E. apply E.
    rewrite readFrame_header in Hop by assumption.
    repeat match type of Hop with
           | context [if ?c then _ else _] => destruct c
           | context [let '(_, _) := ?p in _] => destruct p as [[? [?|]] ?]
           end; exact Hop.
Qed.

(** Case analysis on the reads that follow the length: the masking key, when
    the frame is masked, then the payload. *)
Ltac after_length :=
  match goal with
  | |- context [isMasked ?h] =>
      destruct (isMasked h);
      [ match goal with
        | |- context [ReadFull ?r 4] =>
            destruct (ReadFull r 4) as [[? [?|]] ?]; [discriminate|]
        end
      | ]
  end;
  match goal with
  | |- context [ReadFull ?r (Z.to_nat ?n)] =>
      let Hd := fresh "Hd" in
      destruct (ReadFull r (Z.to_nat n)) as [[? [?|]] ?] eqn:Hd;
      [discriminate|]; apply ReadFull_ok in Hd
  end.

(** The payload of a frame read without error is shorter than 4 GiB. *)
Lemma readFrame_payload_bound (r : Reader) :
  err (fst (readFrame r)) = None ->
  Z.of_nat (List.length (payload (fst (readFrame r)))) < 2 ^ 32.
Proof.
  destruct r as [|h0 [|h1 r]]; try discriminate.
  destruct (byte_eqb (band h0 x0f) x08) eqn:E.
  - apply byte_eqb_eq in E. rewrite readFrame_close by assumption. simpl. lia.
  - apply byte_eqb_neq in E. rewrite readFrame_header by assumption.
    pose proof (declaredLen_bound h1) as Hb. unfold declaredLen in Hb.
    destruct (len7 h1 =? 126); [|destruct (len7 h1 =? 127)].
    + destruct (ReadFull r 2) as [[ext [e|]] r1]; [discriminate|].
      specialize (Hb ext).
      after_length; simpl; rewrite ?xorMask_length; lia.
    + destruct (ReadFull r 8) as [[ext [e|]] r1]; [discriminate|].
      specialize (Hb ext).
      after_length; simpl; rewrite ?xorMask_length; lia.
    + specialize (Hb []).
      after_length; simpl; rewrite ?xorMask_length; lia.
Qed.

(** The opcode [readFrame] returns has four bits. *)
Lemma readFrame_opcode_lt16 (r : Reader) : int (opcode (fst (readFrame r))) < 16.
Proof.
  destruct r as [|h0 [|h1 r]]; try (vm_compute; reflexivity).
  destruct (byte_eqb (band h0 x0f) x08) eqn:E.
  - apply byte_eqb_eq in E. rewrite readFrame_close by assumption.
    vm_compute. reflexivity.
  - apply byte_eqb_neq in E. rewrite readFrame_header by assumption.
    pose proof (opcode_lt16 h0).
    repeat match goal with
           | |- context [if ?c then _ else _] => destruct c
           | |- context [let '(_, _) := ?p in _] => destruct p as [[? [?|]] ?]
           end; assumption.
Qed.

(** ** The length field [writeFrame] chooses *)

Lemma encodeFrame_inline (op : byte) (payload : list byte) :
  Z.of_nat (List.length payload) < 126 ->
  exists l, encodeFrame op payload = bor x80 op :: l :: payload
            /\ int l = Z.of_nat (List.length payload).
Proof.
  intros Hn. rewrite encodeFrame_eq. unfold lengthField.
  destruct (Z.ltb_spec (Z.of_nat (List.length payload)) 126); [|lia].
  eexists. split; [reflexivity|].
  rewrite int_as_byte. apply Z.mod_small. lia.
Qed.

Lemma encodeFrame_16 (op : byte) (payload : list byte) :
  126 <= Z.of_nat (List.length payload) <= 0xFFFF ->
  exists e0 e1,
    encodeFrame op payload = bor x80 op :: x7e :: e0 :: e1 :: payload
    /\ int e0 * 256 + int e1 = Z.of_nat (List.length payload).
Proof.
  intros Hn. rewrite encodeFrame_eq. unfold lengthField.
  destruct (Z.ltb_spec (Z.of_nat (List.length payload)) 126); [lia|].
  destruct (Z.leb_spec (Z.of_nat (List.length payload)) 0xFFFF); [|lia].
  do 2 eexists. split; [reflexivity|]. apply be16_arith. lia.
Qed.

Lemma encodeFrame_64 (op : byte) (payload : list byte) :
  0xFFFF < Z.of_nat (List.length payload) ->
  exists l4 l5 l6 l7,
    encodeFrame op payload
    = bor x80 op :: x7f :: x00 :: x00 :: x00 :: x00
        :: l4 :: l5 :: l6 :: l7 :: payload
    /\ int l4 * 2 ^ 24 + int l5 * 2 ^ 16 + int l6 * 2 ^ 8 + int l7
       = Z.of_nat (List.length payload) mod 2 ^ 32.
Proof.
  intros Hn. rewrite encodeFrame_eq. unfold lengthField.
  destruct (Z.ltb_spec (Z.of_nat (List.length payload)) 126); [lia|].
  destruct (Z.leb_spec (Z.of_nat (List.length payload)) 0xFFFF); [lia|].
  do 4 eexists. split; [reflexivity|]. apply be32_arith. lia.
Qed.

(** ** Masking *)

Lemma xorMask_involutive (key payload : list byte) (i : nat) :
  xorMask i key (xorMask i key payload) = payload.
Proof.
  revert i. induction payload as [|b rest IH]; intros i; simpl.
  - reflexivity.
  - now rewrite bxor_involutive, IH.
Qed.

Lemma xorMask_nth (key payload : list byte) (i j : nat) :
  (j < List.length payload)%nat ->
  nth j (xorMask i key payload) x00
  = bxor (nth j payload x00) (nth ((i + j) mod 4) key x00).
Proof.
  revert i j. induction payload as [|b rest IH]; intros i j Hj; simpl in *.
  - lia.
  - destruct j as [|j].
    + now rewrite Nat.add_0_r.
    + rewrite IH by lia. now replace (S i + j)%nat with (i + S j)%nat by lia.
Qed.

(** * The claims *)

(** ** Decoding *)

(** C4. When the first header byte of the stream carries opcode 0x8,
    [readFrame] returns opcode 0x8 with an empty payload and no error, and the
    stream is left at [rest], directly behind the two header bytes: no
    extension, masking-key or payload byte is read, whatever the second
    header byte (mask bit, length field) and the bytes behind it are. *)
Theorem readFrame_close_short_circuit (h0 h1 : byte) (rest : list byte) :
  band h0 x0f = x08 ->
  readFrame (h0 :: h1 :: rest) = (mkResult x08 [] None, rest).
Proof. apply readFrame_close. Qed.

Lemma readFrame_close_short_circuit_witness :
  band x88 x0f = x08
  /\ isMasked xff = true /\ len7 xff = 127
  /\ readFrame (x88 :: xff :: [x03; xe8; x01; x02])
     = (mkResult x08 [] None, [x03; xe8; x01; x02]).
Proof.
  split; [reflexivity|]. split; [reflexivity|]. split; [reflexivity|].
  apply (readFrame_close_short_circuit x88 xff [x03; xe8; x01; x02]).
  reflexivity.
Defined.

(** C2, as the spec states it, fails on a close frame: with fin clear and
    opcode 0x8 (here with five unmasked payload bytes) [readFrame] reports no
    error at all, and the payload bytes stay unread in the stream. *)
Lemma close_frame_with_fin_clear_is_accepted :
  isFin x08 = false
  /\ framed x05 [] [] [x01; x02; x03; x04; x05] = true
  /\ readFrame (x08 :: x05 :: [] ++ [] ++ [x01; x02; x03; x04; x05] ++ [])
     = (mkResult x08 [] None, [x01; x02; x03; x04; x05]).
Proof. repeat split. Qed.

(** C2, amended. For every stream that carries a whole frame whose fin bit is
    0 and whose opcode is not close (0x8), [readFrame] fails with the
    fragmentation error, whatever the opcode and the payload are otherwise,
    and the stream is left at [rest], directly behind the frame: the frame's
    bytes were consumed before the error was reported. *)
Theorem readFrame_fin_clear_is_fragmented
    (h0 h1 : byte) (ext key data rest : list byte) :
  isFin h0 = false ->
  band h0 x0f <> x08 ->
  framed h1 ext key data = true ->
  readFrame (h0 :: h1 :: ext ++ key ++ data ++ rest)
  = (mkResult (band h0 x0f)
       (if isMasked h1 then xorMask 0 key data else data)
       (Some ErrFragmented),
     rest).
Proof.
  intros Hfin Hop Hf. rewrite readFrame_frame by assumption.
  now rewrite Hfin.
Qed.

Lemma readFrame_fin_clear_is_fragmented_witness :
  readFrame (x01 :: x82 :: [] ++ [x01; x02; x03; x04] ++ [x49; x6b] ++ [x81; x00])
  = (mkResult x01 [x48; x69] (Some ErrFragmented), [x81; x00]).
Proof.
  apply (readFrame_fin_clear_is_fragmented
           x01 x82 [] [x01; x02; x03; x04] [x49; x6b] [x81; x00]).
  - reflexivity.
  - discriminate.
  - reflexivity.
Defined.

(** C10. [readFrame] does not look at the bits RSV1-3 (0x70) of the first
    header byte: two streams that agree everywhere except in those three bits
    give the same opcode, payload and error, and leave the same stream
    behind.  In particular a frame with reserved bits set is treated as the
    same frame with the bits clear, and is not rejected for them. *)
Theorem readFrame_ignores_rsv (h0 h0' : byte) (r : Reader) :
  band h0 x8f = band h0' x8f ->
  readFrame (h0 :: r) = readFrame (h0' :: r).
Proof.
  intros H. destruct r as [|h1 r]; [reflexivity|].
  unfold readFrame.
  change (ReadFull (h0 :: h1 :: r) 2) with ([h0; h1], @None error, r).
  change (ReadFull (h0' :: h1 :: r) 2) with ([h0'; h1], @None error, r).
  cbv beta iota zeta.
  change (nth 0 [h0; h1] x00) with h0. change (nth 0 [h0'; h1] x00) with h0'.
  rewrite <- (rsv_fin h0), <- (rsv_opcode h0), H, rsv_fin, rsv_opcode.
  reflexivity.
Qed.

Lemma readFrame_ignores_rsv_witness :
  readFrame (xf1 :: [x02; x48; x69; x00])
  = readFrame (x81 :: [x02; x48; x69; x00])
  /\ readFrame (xf1 :: [x02; x48; x69; x00])
     = (mkResult x01 [x48; x69] None, [x00]).
Proof.
  split.
  - apply (readFrame_ignores_rsv xf1 x81 [x02; x48; x69; x00]). reflexivity.
  - reflexivity.
Defined.

(** C9, as stated, fails on a masked close frame, which is what a client
    sends to end a session: for the frame 88 82 with key 37 fa 21 3d and the
    masked status code 03 e8, [readFrame] returns an empty payload, not the
    client's two bytes, and leaves the key and the masked payload unread. *)
Lemma masked_close_frame_payload_is_not_exposed :
  isMasked x82 = true
  /\ framed x82 [] [x37; xfa; x21; x3d]
       (xorMask 0 [x37; xfa; x21; x3d] [x03; xe8]) = true
  /\ readFrame (x88 :: x82 :: [] ++ [x37; xfa; x21; x3d]
                  ++ xorMask 0 [x37; xfa; x21; x3d] [x03; xe8] ++ [])
     = (mkResult x08 [] None,
        [x37; xfa; x21; x3d] ++ xorMask 0 [x37; xfa; x21; x3d] [x03; xe8])
  /\ decodedPayload
       (readFrame (x88 :: x82 :: [] ++ [x37; xfa; x21; x3d]
                     ++ xorMask 0 [x37; xfa; x21; x3d] [x03; xe8] ++ []))
     <> [x03; xe8].
Proof.
  split; [reflexivity|]. split; [reflexivity|]. split; [reflexivity|].
  discriminate.
Qed.

(** C9, amended. For every four-byte masking key and every payload: the
    masking transform XORs byte [i] with [key[i % 4]]; applying it twice
    gives the payload back; hence [readFrame], given a masked frame whose
    opcode is not close (0x8) and whose payload bytes are the client's
    payload masked with the key, returns the client's payload. *)
Theorem masking_is_self_inverse (k0 k1 k2 k3 : byte) (payload : list byte) :
  let key := [k0; k1; k2; k3] in
  (forall i, (i < List.length payload)%nat ->
     nth i (xorMask 0 key payload) x00
     = bxor (nth i payload x00) (nth (i mod 4) key x00))
  /\ xorMask 0 key (xorMask 0 key payload) = payload
  /\ (forall (h0 h1 : byte) (ext rest : list byte),
        band h0 x0f <> x08 ->
        isMasked h1 = true ->
        framed h1 ext key (xorMask 0 key payload) = true ->
        decodedPayload (readFrame (h0 :: h1 :: ext ++ key
                               ++ xorMask 0 key payload ++ rest))
        = payload).
Proof.
  intros key. split; [|split].
  - intros i Hi. now rewrite xorMask_nth.
  - apply xorMask_involutive.
  - intros h0 h1 ext rest Hop Hm Hf. unfold decodedPayload.
    rewrite readFrame_frame by assumption. rewrite Hm. simpl.
    apply xorMask_involutive.
Qed.

Lemma masking_is_self_inverse_witness :
  xorMask 0 [x37; xfa; x21; x3d]
    (xorMask 0 [x37; xfa; x21; x3d] [x48; x65; x6c; x6c; x6f])
  = [x48; x65; x6c; x6c; x6f]
  /\ decodedPayload (readFrame (x81 :: x85 :: [] ++ [x37; xfa; x21; x3d]
                 ++ xorMask 0 [x37; xfa; x21; x3d] [x48; x65; x6c; x6c; x6f]
                 ++ [x88; x80]))
     = [x48; x65; x6c; x6c; x6f].
Proof.
  pose proof (masking_is_self_inverse x37 xfa x21 x3d
                [x48; x65; x6c; x6c; x6f]) as [_ [H2 H3]].
  split.
  - exact H2.
  - apply (H3 x81 x85 [] [x88; x80]).
    + discriminate.
    + reflexivity.
    + reflexivity.
Defined.

(** C7, as stated, fails on a close frame: with opcode 0x8 and length field
    127, [readFrame] returns behind the two header bytes; it reads none of
    the eight extension bytes, and the payload it returns is empty although
    the last four extension bytes hold 3. *)
Lemma close_frame_with_length_127_reads_no_extension :
  len7 x7f = 127
  /\ readFrame (x88 :: x7f :: [x00; x00; x00; x00; x00; x00; x00; x03]
                  ++ [x0a; x0b; x0c])
     = (mkResult x08 [] None,
        [x00; x00; x00; x00; x00; x00; x00; x03] ++ [x0a; x0b; x0c]).
Proof. split; reflexivity. Qed.

(** C7, amended. Decoding: for a frame whose length field is 127 and whose
    opcode is not close (0x8), [readFrame] takes exactly the eight bytes
    [e0 .. e7] behind the header as the extended length; the payload it then
    reads has the length given by the big-endian value of [e4 e5 e6 e7]
    alone, whatever [e0 e1 e2 e3] are.
    Encoding: for a payload longer than 0xFFFF, [writeFrame] sends the length
    byte 127, four zero bytes, and four bytes holding the low 32 bits of the
    length in big-endian order. *)
Theorem extended_length_uses_low_32_bits :
  (forall (h0 h1 e0 e1 e2 e3 e4 e5 e6 e7 : byte) (key data rest : list byte),
      band h0 x0f <> x08 ->
      len7 h1 = 127 ->
      List.length key = keySize h1 ->
      Z.of_nat (List.length data)
      = int e4 * 2 ^ 24 + int e5 * 2 ^ 16 + int e6 * 2 ^ 8 + int e7 ->
      readFrame (h0 :: h1 :: [e0; e1; e2; e3; e4; e5; e6; e7]
                   ++ key ++ data ++ rest)
      = (mkResult (band h0 x0f)
           (if isMasked h1 then xorMask 0 key data else data)
           (if isFin h0 then None else Some ErrFragmented),
         rest))
  /\ (forall (op : byte) (payload : list byte),
        0xFFFF < Z.of_nat (List.length payload) ->
        exists l4 l5 l6 l7,
          encodeFrame op payload
          = bor x80 op :: x7f :: x00 :: x00 :: x00 :: x00
              :: l4 :: l5 :: l6 :: l7 :: payload
          /\ int l4 * 2 ^ 24 + int l5 * 2 ^ 16 + int l6 * 2 ^ 8 + int l7
             = Z.of_nat (List.length payload) mod 2 ^ 32).
Proof.
  split.
  - intros h0 h1 e0 e1 e2 e3 e4 e5 e6 e7 key data rest Hop H127 Hk Hd.
    apply readFrame_frame; [assumption|].
    unfold framed, extSize, declaredLen. rewrite H127. simpl.
    rewrite Hk, Nat.eqb_refl. simpl. apply Z.eqb_eq.
    now rewrite be32_low_value.
  - apply encodeFrame_64.
Qed.

Lemma extended_length_uses_low_32_bits_witness :
  readFrame (x82 :: x7f :: [xff; xff; xff; xff; x00; x00; x00; x03]
               ++ [] ++ [x0a; x0b; x0c] ++ [x81])
  = (mkResult x02 [x0a; x0b; x0c] None, [x81])
  /\ exists l4 l5 l6 l7,
       encodeFrame x02 (repeat x00 (Z.to_nat 65536))
       = bor x80 x02 :: x7f :: x00 :: x00 :: x00 :: x00
           :: l4 :: l5 :: l6 :: l7 :: repeat x00 (Z.to_nat 65536)
       /\ int l4 * 2 ^ 24 + int l5 * 2 ^ 16 + int l6 * 2 ^ 8 + int l7
          = Z.of_nat (List.length (repeat x00 (Z.to_nat 65536))) mod 2 ^ 32.
Proof.
  split.
  - apply (proj1 extended_length_uses_low_32_bits
             x82 x7f xff xff xff xff x00 x00 x00 x03 [] [x0a; x0b; x0c] [x81]).
    + discriminate.
    + reflexivity.
    + reflexivity.
    + reflexivity.
  - apply (proj2 extended_length_uses_low_32_bits x02
             (repeat x00 (Z.to_nat 65536))).
    rewrite repeat_length. rewrite Z2Nat.id; lia.
Defined.

(** ** Encoding *)

(** C3. For every opcode of four bits other than close and every payload of
    length 0, 125, 126, 65535 or 65536, [readFrame] applied to the bytes
    [writeFrame] sends returns the same opcode and the same payload, without
    error and with nothing left over; and for every payload [writeFrame]
    represents the length by the boundary rule: one byte holding the length
    when it is below 126; the byte 126 and the length as a big-endian 16-bit
    field when it is at most 0xFFFF; the byte 127 and an 8-byte field
    otherwise. *)
Theorem encode_decode_at_length_boundaries :
  (forall (op : byte) (payload rest : list byte),
      int op < 16 -> op <> x08 ->
      In (Z.of_nat (List.length payload)) [0; 125; 126; 65535; 65536] ->
      readFrame (encodeFrame op payload ++ rest)
      = (mkResult op payload None, rest))
  /\ (forall (op : byte) (payload : list byte),
        let n := Z.of_nat (List.length payload) in
        (n < 126 ->
         exists l, encodeFrame op payload = bor x80 op :: l :: payload
                   /\ int l = n)
        /\ (126 <= n <= 0xFFFF ->
            exists e0 e1,
              encodeFrame op payload = bor x80 op :: x7e :: e0 :: e1 :: payload
              /\ int e0 * 256 + int e1 = n)
        /\ (0xFFFF < n ->
            exists e0 e1 e2 e3 e4 e5 e6 e7,
              encodeFrame op payload
              = bor x80 op :: x7f :: e0 :: e1 :: e2 :: e3
                  :: e4 :: e5 :: e6 :: e7 :: payload)).
Proof.
  split.
  - intros op payload rest Hop Hne Hin.
    apply readFrame_encodeFrame; try assumption.
    simpl in Hin. change (2 ^ 32) with 4294967296. lia.
  - intros op payload n. split; [|split].
    + apply encodeFrame_inline.
    + apply encodeFrame_16.
    + intros Hn. destruct (encodeFrame_64 op payload Hn) as (l4 & l5 & l6 & l7 & H & _).
      now exists x00, x00, x00, x00, l4, l5, l6, l7.
Qed.

Lemma encode_decode_at_length_boundaries_witness :
  readFrame (encodeFrame x02 (repeat x41 125) ++ [x88; x00])
  = (mkResult x02 (repeat x41 125) None, [x88; x00])
  /\ exists e0 e1,
       encodeFrame x01 (repeat x41 126)
       = bor x80 x01 :: x7e :: e0 :: e1 :: repeat x41 126
       /\ int e0 * 256 + int e1 = Z.of_nat (List.length (repeat x41 126)).
Proof.
  split.
  - apply (proj1 encode_decode_at_length_boundaries x02 (repeat x41 125)
             [x88; x00]).
    + reflexivity.
    + discriminate.
    + right. left. reflexivity.
  - apply (proj2 encode_decode_at_length_boundaries x01 (repeat x41 126)).
    vm_compute. split; discriminate.
Defined.

(** ** The connection loop *)

Lemma Write_Conn_closed (c : Conn) (p : list byte) :
  closed (fst (Write c p)) = closed c.
Proof.
  unfold Write, Writer_Conn. destruct (room c) as [k|]; [|reflexivity].
  destruct (List.length p <=? k)%nat; reflexivity.
Qed.

Lemma writeFrame_Conn_closed (c : Conn) (op : byte) (payload : list byte) :
  closed (fst (writeFrame c op payload)) = closed c.
Proof.
  unfold writeFrame.
  match goal with
  | |- context [Write c ?h] =>
      pose proof (Write_Conn_closed c h) as H1; destruct (Write c h) as [c1 [e|]]
  end; simpl in *; [assumption|].
  pose proof (Write_Conn_closed c1 payload) as H2.
  destruct (Write c1 payload) as [c2 [e|]]; simpl in *; congruence.
Qed.

(** A masked text frame "Hello" followed by a close frame: the text comes
    back unmasked, the close is answered with code 8 and "bye", and the
    connection is closed once. *)
Example echo_hello_then_close :
  session
    (mkSession
       [x81; x85; x37; xfa; x21; x3d; x7f; x9f; x4d; x51; x58; x88; x00]
       (mkConn [] None 0) [])
  = mkSession []
      (mkConn
         ([x81; x05] ++ bytes_of_string "Hello"
          ++ [x88; x05; x00; x08] ++ bytes_of_string "bye")
         None 1)
      [ReceivedFrame x01 (bytes_of_string "Hello");
       ReceivedFrame x08 []; ReceivedClose].
Proof. vm_compute. reflexivity. Qed.

(** A read error ends the session without a reply. *)
Example truncated_frame_ends_session :
  session (mkSession [x81; x05; x48] (mkConn [] None 0) [])
  = mkSession [] (mkConn [] None 1) [ReadFrameError ErrUnexpectedEOF].
Proof. vm_compute. reflexivity. Qed.



(** C5. When [readFrame] returns the close opcode, the handler prints that a
    close frame arrived, calls [writeCloseFrame] once and leaves the loop:
    the stream is where that [readFrame] left it and no further frame is
    decoded, and the deferred [Close] has run exactly once.  On a connection
    that takes the seven bytes of the reply, what was sent grows by exactly
    one close frame, whose payload is the status code 0x8 in two big-endian
    bytes followed by the bytes of "bye". *)
Theorem close_is_answered_and_ends_the_session (s : Session) :
  opcode (fst (readFrame (rw s))) = x08 ->
  let closeFrame := encodeFrame x08 ([x00; x08] ++ bytes_of_string "bye") in
  closeFrame = [x88; x05; x00; x08; "b"%byte; "y"%byte; "e"%byte]
  /\ rw (session s) = snd (readFrame (rw s))
  /\ closed (conn (session s)) = S (closed (conn s))
  /\ (exists tail,
        stdout (session s)
        = stdout s ++ [ReceivedFrame x08 []; ReceivedClose] ++ tail
        /\ (tail = [] \/ exists e, tail = [WriteFrameError e]))
  /\ (accepts (conn s) 7 = true ->
      outbound (conn (session s)) = outbound (conn s) ++ closeFrame
      /\ stdout (session s)
         = stdout s ++ [ReceivedFrame x08 []; ReceivedClose]).
Proof.
  intros Hop closeFrame.
  destruct (readFrame_opcode_close _ Hop) as (h0 & h1 & rest & Hrw & _ & Hread).
  assert (Hw : writeCloseFrame (conn s) 0x8 "bye"
               = writeFrame (conn s) x08 ([x00; x08] ++ bytes_of_string "bye"))
    by reflexivity.
  assert (Hstep : step s =
            let '(c, e) := writeFrame (conn s) x08
                             ([x00; x08] ++ bytes_of_string "bye") in
            (Return,
             mkSession rest c
               ((stdout s ++ [ReceivedFrame x08 []]) ++ [ReceivedClose]
                ++ match e with Some e => [WriteFrameError e] | None => [] end))).
  { unfold step. rewrite Hread. cbv beta iota zeta.
    change (err (mkResult x08 [] None)) with (@None error).
    change (opcode (mkResult x08 [] None)) with x08.
    change (payload (mkResult x08 [] None)) with (@nil byte).
    change (byte_eqb x08 x08) with true. cbv iota. rewrite Hw.
    destruct (writeFrame _ _ _) as [c [e|]].
    - now rewrite <- app_assoc.
    - now rewrite app_nil_r. }
  assert (Hsession : session s =
            let '(c, e) := writeFrame (conn s) x08
                             ([x00; x08] ++ bytes_of_string "bye") in
            mkSession rest (Close c)
              ((stdout s ++ [ReceivedFrame x08 []]) ++ [ReceivedClose]
               ++ match e with Some e => [WriteFrameError e] | None => [] end)).
  { unfold session. rewrite serve_step, Hstep.
    destruct (writeFrame _ _ _) as [c e]. reflexivity. }
  split; [reflexivity|].
  rewrite Hsession, Hread.
  pose proof (writeFrame_Conn_closed (conn s) x08
                ([x00; x08] ++ bytes_of_string "bye")) as Hcl.
  split; [|split; [|split]].
  - destruct (writeFrame _ _ _) as [c e]. reflexivity.
  - destruct (writeFrame _ _ _) as [c e]. simpl in *. now rewrite Hcl.
  - destruct (writeFrame _ _ _) as [c [e|]].
    + exists [WriteFrameError e]. simpl. rewrite <- app_assoc. split; eauto.
    + exists []. simpl. rewrite <- app_assoc. split; auto.
  - intros Hacc. rewrite writeFrame_Conn_ok by exact Hacc.
    simpl. rewrite <- app_assoc. split; reflexivity.
Qed.

Lemma close_is_answered_and_ends_the_session_witness :
  outbound (conn (session (mkSession [x88; x82; x01; x02; x03; x04; x02; x6b;
                                      x81; x00]
                             (mkConn [x81; x00] None 0) [])))
  = [x81; x00] ++ [x88; x05; x00; x08; "b"%byte; "y"%byte; "e"%byte]
  /\ rw (session (mkSession [x88; x82; x01; x02; x03; x04; x02; x6b; x81; x00]
                    (mkConn [x81; x00] None 0) []))
     = [x01; x02; x03; x04; x02; x6b; x81; x00].
Proof.
  pose proof (close_is_answered_and_ends_the_session
                (mkSession [x88; x82; x01; x02; x03; x04; x02; x6b; x81; x00]
                   (mkConn [x81; x00] None 0) []) eq_refl)
    as (Hf & Hrw & _ & _ & Hout).
  split.
  - rewrite <- Hf. apply Hout. reflexivity.
  - exact Hrw.
Defined.

(** ** The handshake *)

Lemma Get_Set_same (h : Header) (value : string) :
  Get (Set_ h "Sec-WebSocket-Accept" value) "Sec-WebSocket-Accept" = value.
Proof.
  unfold Get, Set_. now rewrite lookup_insert_eq.
Qed.

Lemma Get_absent (h : Header) (key : string) :
  h !! CanonicalMIMEHeaderKey key = None -> Get h key = "".
Proof. unfold Get. now intros ->. Qed.

Lemma sum_length (msg : list byte) : List.length (Sha1.sum msg) = 20%nat.
Proof. reflexivity. Qed.

(** Twenty bytes encode to 27 characters of the alphabet and one pad. *)
Lemma encode_20 (src : list byte) :
  List.length src = 20%nat ->
  exists body, Base64.encode src = body ++ [Base64.padChar]
               /\ List.length body = 27%nat.
Proof.
  intros H.
  do 20 (destruct src as [|? src]; [discriminate|]).
  destruct src; [|discriminate].
  eexists. split.
  - cbn [Base64.encode]. repeat rewrite app_comm_cons.
    match goal with |- ?l = _ => change l with (removelast l ++ [Base64.padChar]) end.
    reflexivity.
  - reflexivity.
Qed.

Lemma string_of_list_byte_length (l : list byte) :
  String.length (string_of_list_byte l) = List.length l.
Proof. induction l as [|b l IH]; simpl; [reflexivity|f_equal; exact IH]. Qed.

Lemma string_of_list_byte_app (a b : list byte) :
  string_of_list_byte (a ++ b)
  = String.append (string_of_list_byte a) (string_of_list_byte b).
Proof.
  unfold string_of_list_byte.
  induction a as [|x a IH]; simpl; [reflexivity|].
  rewrite IH. reflexivity.
Qed.

(** C1. For every request that passes the header checks, the 101 response
    carries, as [Sec-WebSocket-Accept], the standard base64 encoding (28
    characters, the last one the pad "=") of the SHA-1 digest of the request's
    [Sec-WebSocket-Key] followed by the GUID
    258EAFA5-E914-47DA-95CA-C5AB0DC85B11; for the key
    dGhlIHNhbXBsZSBub25jZQ== it is s3pPLMBiTxaQ9kYGzzhZRbK+xOo=. *)
Theorem accept_key_is_base64_sha1 (header : Header) (hijack : option Session) :
  Get header "Connection" = "Upgrade" ->
  Get header "Upgrade" = "websocket" ->
  Get header "Sec-WebSocket-Key" <> "" ->
  exists w,
    switched (websocketHandler header hijack) = Some w
    /\ Get w "Sec-WebSocket-Accept"
       = Base64.EncodeToString
           (Sha1.sum
              (bytes_of_string
                 (String.append (Get header "Sec-WebSocket-Key")
                    "258EAFA5-E914-47DA-95CA-C5AB0DC85B11")))
    /\ (exists body,
          Get w "Sec-WebSocket-Accept" = String.append body "="
          /\ String.length body = 27%nat)
    /\ (Get header "Sec-WebSocket-Key" = "dGhlIHNhbXBsZSBub25jZQ==" ->
        Get w "Sec-WebSocket-Accept" = "s3pPLMBiTxaQ9kYGzzhZRbK+xOo=").
Proof.
  intros Hc Hu Hk.
  unfold websocketHandler. rewrite Hc, Hu.
  change (negb ("Upgrade" =? "Upgrade")%string) with false.
  change (negb ("websocket" =? "websocket")%string) with false.
  cbv [orb]. cbv iota.
  destruct (String.eqb_spec (Get header "Sec-WebSocket-Key") "") as [E|_];
    [contradiction|].
  cbv zeta.
  eexists. split.
  { destruct hijack; reflexivity. }
  rewrite Get_Set_same. split; [reflexivity|]. split.
  - unfold Base64.EncodeToString.
    destruct (encode_20 (Sha1.sum (bytes_of_string
                (String.append (Get header "Sec-WebSocket-Key") magicGUID))))
      as (body & -> & Hlen); [apply sum_length|].
    exists (string_of_list_byte body). split.
    + apply string_of_list_byte_app.
    + now rewrite string_of_list_byte_length.
  - intros ->. vm_compute. reflexivity.
Qed.

Lemma accept_key_is_base64_sha1_witness :
  exists w,
    switched
      (websocketHandler
         (<["Sec-Websocket-Key" := ["dGhlIHNhbXBsZSBub25jZQ=="]]>
            (<["Upgrade" := ["websocket"]]>
               (<["Connection" := ["Upgrade"]]> ∅)))
         None) = Some w
    /\ Get w "Sec-WebSocket-Accept" = "s3pPLMBiTxaQ9kYGzzhZRbK+xOo=".
Proof.
  destruct (accept_key_is_base64_sha1
              (<["Sec-Websocket-Key" := ["dGhlIHNhbXBsZSBub25jZQ=="]]>
                 (<["Upgrade" := ["websocket"]]>
                    (<["Connection" := ["Upgrade"]]> ∅)))
              None)
    as (w & Hw & _ & _ & Hv).
  - vm_compute. reflexivity.
  - vm_compute. reflexivity.
  - vm_compute. discriminate.
  - exists w. split; [exact Hw|]. apply Hv. vm_compute. reflexivity.
Defined.

(** C6. For every set of request headers: when [Connection] is not exactly
    "Upgrade" or [Upgrade] is not exactly "websocket" (string equality,
    so case matters), the handler answers 400 "Not a websocket upgrade
    request"; when those two pass and [Sec-WebSocket-Key] is empty or absent,
    it answers 400 "Bad WebSocket handshake"; in each of these cases no 101
    response is written and the connection is not taken over.  Only when all
    three checks pass is the 101 response written and the connection handed
    to the loop.  (The key is looked at after the other two headers, in the
    order the spec lists the checks: a request that fails both is answered
    with the first message.) *)
Theorem handshake_rejects_bad_requests
    (header : Header) (hijack : option Session) :
  (Get header "Connection" <> "Upgrade" \/ Get header "Upgrade" <> "websocket" ->
   websocketHandler header hijack = NotAnUpgradeRequest)
  /\ (Get header "Connection" = "Upgrade" ->
      Get header "Upgrade" = "websocket" ->
      Get header "Sec-WebSocket-Key" = "" ->
      websocketHandler header hijack = MissingHandshakeKey)
  /\ (header !! "Sec-Websocket-Key" = None ->
      Get header "Sec-WebSocket-Key" = "")
  /\ (Get header "Connection" <> "Upgrade"
      \/ Get header "Upgrade" <> "websocket"
      \/ Get header "Sec-WebSocket-Key" = "" ->
      (exists msg,
          websocketHandler header hijack = HttpError StatusBadRequest msg)
      /\ switched (websocketHandler header hijack) = None
      /\ takenOver (websocketHandler header hijack) = None)
  /\ (Get header "Connection" = "Upgrade" ->
      Get header "Upgrade" = "websocket" ->
      Get header "Sec-WebSocket-Key" <> "" ->
      switched (websocketHandler header hijack) <> None
      /\ forall s, hijack = Some s ->
                   takenOver (websocketHandler header hijack)
                   = Some (session s)).
Proof.
  assert (Hbad : Get header "Connection" <> "Upgrade"
                 \/ Get header "Upgrade" <> "websocket" ->
                 websocketHandler header hijack = NotAnUpgradeRequest).
  { intros H. unfold websocketHandler.
    destruct (String.eqb_spec (Get header "Connection") "Upgrade") as [Ec|Ec];
      [|reflexivity].
    destruct (String.eqb_spec (Get header "Upgrade") "websocket") as [Eu|Eu];
      [|reflexivity].
    destruct H; contradiction. }
  assert (Hkey : Get header "Connection" = "Upgrade" ->
                 Get header "Upgrade" = "websocket" ->
                 Get header "Sec-WebSocket-Key" = "" ->
                 websocketHandler header hijack = MissingHandshakeKey).
  { intros Hc Hu Hk. unfold websocketHandler. rewrite Hc, Hu, Hk. reflexivity. }
  split; [exact Hbad|]. split; [exact Hkey|]. split; [|split].
  - apply (Get_absent header "Sec-WebSocket-Key").
  - intros H.
    destruct (String.eqb_spec (Get header "Connection") "Upgrade") as [Ec|Ec].
    + destruct (String.eqb_spec (Get header "Upgrade") "websocket") as [Eu|Eu].
      * destruct H as [H|[H|H]]; try contradiction.
        rewrite (Hkey Ec Eu H). unfold MissingHandshakeKey. eauto.
      * rewrite Hbad by auto. unfold NotAnUpgradeRequest. eauto.
    + rewrite Hbad by auto. unfold NotAnUpgradeRequest. eauto.
  - intros Hc Hu Hk. unfold websocketHandler. rewrite Hc, Hu.
    destruct (String.eqb_spec (Get header "Sec-WebSocket-Key") "") as [E|_];
      [contradiction|].
    change (negb ("Upgrade" =? "Upgrade")%string) with false.
    change (negb ("websocket" =? "websocket")%string) with false.
    cbv [orb]. cbv iota zeta.
    split.
    + destruct hijack; discriminate.
    + intros s ->. reflexivity.
Qed.

Lemma handshake_rejects_bad_requests_witness :
  websocketHandler
    (<["Sec-Websocket-Key" := ["dGhlIHNhbXBsZSBub25jZQ=="]]>
       (<["Upgrade" := ["websocket"]]> (<["Connection" := ["upgrade"]]> ∅)))
    (Some (mkSession [] (mkConn [] None 0) []))
  = NotAnUpgradeRequest
  /\ websocketHandler
       (<["Upgrade" := ["websocket"]]> (<["Connection" := ["Upgrade"]]> ∅))
       (Some (mkSession [] (mkConn [] None 0) []))
     = MissingHandshakeKey.
Proof.
  split.
  - apply (proj1 (handshake_rejects_bad_requests _ _)).
    left. vm_compute. discriminate.
  - apply (proj1 (proj2 (handshake_rejects_bad_requests _ _))).
    + vm_compute. reflexivity.
    + vm_compute. reflexivity.
    + vm_compute. reflexivity.
Defined.

(** * Further properties of the code *)

(** ** More on reading *)

Lemma ReadFull_zero (r : Reader) : ReadFull r 0 = ([], None, r).
Proof. reflexivity. Qed.

Lemma ReadFull_short (r : Reader) (n : nat) :
  (List.length r < n)%nat ->
  ReadFull r n
  = (r ++ repeat x00 (n - List.length r),
     Some (match r with [] => EOF | _ => ErrUnexpectedEOF end), []).
Proof.
  intros H. unfold ReadFull.
  destruct (Nat.leb_spec n (List.length r)); [lia|reflexivity].
Qed.

Lemma ReadFull_err (r : Reader) (n : nat) (buf : list byte) (e : error)
    (r' : Reader) :
  ReadFull r n = (buf, Some e, r') ->
  (e = EOF \/ e = ErrUnexpectedEOF) /\ r' = [].
Proof.
  unfold ReadFull. destruct (n <=? List.length r)%nat; [discriminate|].
  intros [= _ <- <-]. destruct r; auto.
Qed.

(** [readFrame] behind the header of a frame that is not a close frame, as
    three reads in a row: the extension, the key, the payload. *)
Lemma readFrame_steps (h0 h1 : byte) (r : Reader) :
  band h0 x0f <> x08 ->
  readFrame (h0 :: h1 :: r) =
    let '(ext, e, r) := ReadFull r (extSize h1) in
    match e with
    | Some e => (mkResult (band h0 x0f) [] (Some e), r)
    | None =>
      let '(key, e, r) := ReadFull r (keySize h1) in
      match e with
      | Some e => (mkResult (band h0 x0f) [] (Some e), r)
      | None =>
        let '(data, e, r) := ReadFull r (Z.to_nat (declaredLen h1 ext)) in
        match e with
        | Some e => (mkResult (band h0 x0f) data (Some e), r)
        | None =>
          (mkResult (band h0 x0f)
             (if isMasked h1 then xorMask 0 key data else data)
             (if isFin h0 then None else Some ErrFragmented), r)
        end
      end
    end.
Proof.
  intros Hop. rewrite readFrame_header by assumption.
  unfold extSize, keySize, declaredLen.
  destruct (len7 h1 =? 126); [|destruct (len7 h1 =? 127)].
  - destruct (ReadFull r 2) as [[ext [e|]] r1]; [reflexivity|].
    destruct (isMasked h1); [reflexivity|]. rewrite ReadFull_zero.
    destruct (ReadFull r1 _) as [[data [e|]] r2]; reflexivity.
  - destruct (ReadFull r 8) as [[ext [e|]] r1]; [reflexivity|].
    destruct (isMasked h1); [reflexivity|]. rewrite ReadFull_zero.
    destruct (ReadFull r1 _) as [[data [e|]] r2]; reflexivity.
  - rewrite ReadFull_zero. cbv beta iota zeta.
    destruct (isMasked h1); [reflexivity|]. rewrite ReadFull_zero.
    destruct (ReadFull r _) as [[data [e|]] r2]; reflexivity.
Qed.

Lemma framed_inv (h1 : byte) (ext key data : list byte) :
  framed h1 ext key data = true ->
  List.length ext = extSize h1
  /\ List.length key = keySize h1
  /\ Z.of_nat (List.length data) = declaredLen h1 ext.
Proof.
  unfold framed. intros H.
  apply andb_true_iff in H. destruct H as [H Hd].
  apply andb_true_iff in H. destruct H as [He Hk].
  apply Nat.eqb_eq in He, Hk. apply Z.eqb_eq in Hd. auto.
Qed.

Lemma framed_intro (h1 : byte) (ext key data : list byte) :
  List.length ext = extSize h1 ->
  List.length key = keySize h1 ->
  Z.of_nat (List.length data) = declaredLen h1 ext ->
  framed h1 ext key data = true.
Proof.
  intros He Hk Hd. unfold framed.
  rewrite He, Hk, Hd, !Nat.eqb_refl, Z.eqb_refl. reflexivity.
Qed.

(** A prefix of [a ++ b] at least as long as [a] starts with [a]. *)
Lemma app_prefix_split (a b c d : list byte) :
  a ++ b = c ++ d -> (List.length a <= List.length c)%nat ->
  exists c', c = a ++ c' /\ b = c' ++ d.
Proof.
  revert c. induction a as [|x a IH]; intros c H Hl; simpl in *.
  - exists c. auto.
  - destruct c as [|y c]; simpl in *; [lia|].
    injection H as -> H. destruct (IH c H) as (c' & -> & ->); [lia|].
    exists c'. auto.
Qed.

(** ** readFrame: whole, short and cut-off input *)

(** X1. A stream that carries a whole frame with fin set and an opcode other
    than close is decoded without error: the opcode is the low four bits of
    the first byte, the payload is the data (unmasked when the mask bit is
    set, as it came otherwise: unmasked client frames are taken too), its
    length is the announced one, and the stream is left right behind the
    frame.  The length may be announced in any of the three forms, minimal or
    not. *)
Theorem whole_frame_is_decoded (h0 h1 : byte) (ext key data rest : list byte) :
  isFin h0 = true ->
  band h0 x0f <> x08 ->
  framed h1 ext key data = true ->
  readFrame (h0 :: h1 :: ext ++ key ++ data ++ rest)
  = (mkResult (band h0 x0f)
       (if isMasked h1 then xorMask 0 key data else data) None,
     rest)
  /\ Z.of_nat (List.length (if isMasked h1 then xorMask 0 key data else data))
     = declaredLen h1 ext.
Proof.
  intros Hfin Hop Hf. split.
  - rewrite readFrame_frame by assumption. now rewrite Hfin.
  - apply framed_inv in Hf. destruct Hf as (_ & _ & Hd).
    destruct (isMasked h1); [rewrite xorMask_length|]; exact Hd.
Qed.

Lemma whole_frame_is_decoded_witness :
  readFrame (x82 :: x7e :: [x00; x03] ++ [] ++ [x0a; x0b; x0c] ++ [x81; x00])
  = (mkResult x02 [x0a; x0b; x0c] None, [x81; x00]).
Proof.
  apply (whole_frame_is_decoded x82 x7e [x00; x03] [] [x0a; x0b; x0c]
           [x81; x00]).
  - reflexivity.
  - discriminate.
  - reflexivity.
Defined.

(** X2. On a stream with fewer than two bytes [readFrame] returns opcode 0,
    no payload and the read error: [io.EOF] when the stream is empty,
    [io.ErrUnexpectedEOF] when it holds one byte; the stream is drained. *)
Theorem short_header_is_read_error (r : Reader) :
  (List.length r < 2)%nat ->
  readFrame r
  = (mkResult x00 []
       (Some (match r with [] => EOF | _ => ErrUnexpectedEOF end)),
     []).
Proof.
  intros H. destruct r as [|h0 [|h1 r]]; simpl in H; try lia; reflexivity.
Qed.

Lemma short_header_is_read_error_witness :
  readFrame [] = (mkResult x00 [] (Some EOF), [])
  /\ readFrame [x81] = (mkResult x00 [] (Some ErrUnexpectedEOF), []).
Proof.
  split.
  - apply (short_header_is_read_error []). simpl. lia.
  - apply (short_header_is_read_error [x81]). simpl. lia.
Defined.

(** X3. A frame (not a close frame) that is cut off anywhere behind its
    header is never delivered: [readFrame] returns [io.EOF] or
    [io.ErrUnexpectedEOF], not the fragmentation error and not success,
    whatever the fin bit says, and the stream is drained. *)
Theorem cut_off_frame_is_read_error
    (h0 h1 : byte) (ext key data tail missing : list byte) :
  band h0 x0f <> x08 ->
  framed h1 ext key data = true ->
  ext ++ key ++ data = tail ++ missing ->
  missing <> [] ->
  exists res e,
    readFrame (h0 :: h1 :: tail) = (res, [])
    /\ opcode res = band h0 x0f
    /\ err res = Some e
    /\ (e = EOF \/ e = ErrUnexpectedEOF).
Proof.
  intros Hop Hf Hcut Hmiss.
  apply framed_inv in Hf. destruct Hf as (He & Hk & Hd).
  assert (Hm : (0 < List.length missing)%nat)
    by (destruct missing; [contradiction|simpl; lia]).
  assert (Hio : forall r : Reader,
             match r with [] => EOF | _ => ErrUnexpectedEOF end = EOF
             \/ match r with [] => EOF | _ => ErrUnexpectedEOF end
                = ErrUnexpectedEOF)
    by (intros []; auto).
  rewrite readFrame_steps by assumption.
  destruct (Nat.lt_ge_cases (List.length tail) (List.length ext)) as [H1|H1].
  { rewrite ReadFull_short by lia. do 2 eexists. repeat split. apply Hio. }
  destruct (app_prefix_split _ _ _ _ Hcut H1) as (t1 & -> & Hcut1).
  rewrite (ReadFull_app ext t1 _ He). cbv beta iota zeta.
  destruct (Nat.lt_ge_cases (List.length t1) (List.length key)) as [H2|H2].
  { rewrite ReadFull_short by lia. do 2 eexists. repeat split. apply Hio. }
  destruct (app_prefix_split _ _ _ _ Hcut1 H2) as (t2 & -> & Hcut2).
  rewrite (ReadFull_app key t2 _ Hk). cbv beta iota zeta.
  rewrite ReadFull_short.
  - do 2 eexists. repeat split. apply Hio.
  - rewrite <- Hd, Nat2Z.id, Hcut2, length_app. lia.
Qed.

Lemma cut_off_frame_is_read_error_witness :
  exists res e,
    readFrame (x81 :: x85 :: [x37; xfa; x21; x3d; x7f; x9f]) = (res, [])
    /\ opcode res = band x81 x0f
    /\ err res = Some e
    /\ (e = EOF \/ e = ErrUnexpectedEOF).
Proof.
  apply (cut_off_frame_is_read_error x81 x85 [] [x37; xfa; x21; x3d]
           [x7f; x9f; x4d; x51; x58] [x37; xfa; x21; x3d; x7f; x9f]
           [x4d; x51; x58]).
  - discriminate.
  - reflexivity.
  - reflexivity.
  - discriminate.
Defined.

(** The converse of [readFrame_frame]. *)
Lemma readFrame_inv (r rest : Reader) (res : Result) :
  readFrame r = (res, rest) ->
  err res = None \/ err res = Some ErrFragmented ->
  opcode res <> x08 ->
  exists h0 h1 ext key data,
    r = h0 :: h1 :: ext ++ key ++ data ++ rest
    /\ framed h1 ext key data = true
    /\ opcode res = band h0 x0f
    /\ payload res = (if isMasked h1 then xorMask 0 key data else data)
    /\ err res = (if isFin h0 then None else Some ErrFragmented).
Proof.
  intros Hread Herr Hop.
  destruct r as [|h0 [|h1 r]].
  1,2: injection Hread as <- _; simpl in Herr; destruct Herr; discriminate.
  destruct (byte_eqb (band h0 x0f) x08) eqn:E.
  { apply byte_eqb_eq in E. rewrite readFrame_close in Hread by assumption.
    injection Hread as <- _. contradiction. }
  apply byte_eqb_neq in E. rewrite readFrame_steps in Hread by assumption.
  destruct (ReadFull r (extSize h1)) as [[ext [e|]] r1] eqn:R1.
  { apply ReadFull_err in R1. injection Hread as <- _. simpl in Herr.
    destruct R1 as [[->| ->] _], Herr; discriminate. }
  destruct (ReadFull r1 (keySize h1)) as [[key [e|]] r2] eqn:R2.
  { apply ReadFull_err in R2. injection Hread as <- _. simpl in Herr.
    destruct R2 as [[->| ->] _], Herr; discriminate. }
  destruct (ReadFull r2 _) as [[data [e|]] r3] eqn:R3.
  { apply ReadFull_err in R3. injection Hread as <- _. simpl in Herr.
    destruct R3 as [[->| ->] _], Herr; discriminate. }
  apply ReadFull_ok in R1, R2, R3.
  destruct R1 as [-> L1], R2 as [-> L2], R3 as [-> L3].
  injection Hread as <- <-.
  exists h0, h1, ext, key, data. repeat split.
  apply framed_intro; try assumption.
  rewrite L3, Z2Nat.id; [reflexivity|apply declaredLen_bound].
Qed.

(** X4. Whenever [readFrame] returns without a read error and with an
    opcode other than close (no error, or the fragmentation error), the
    stream began with a whole frame: header, extension, key and data in the
    announced sizes.  The result is that frame's opcode and unmasked data,
    the error says whether fin was set, and the stream returned is exactly
    what followed the frame. *)
Theorem decoded_frame_was_on_the_wire (r rest : Reader) (res : Result) :
  readFrame r = (res, rest) ->
  err res = None \/ err res = Some ErrFragmented ->
  opcode res <> x08 ->
  exists h0 h1 ext key data,
    r = h0 :: h1 :: ext ++ key ++ data ++ rest
    /\ framed h1 ext key data = true
    /\ opcode res = band h0 x0f
    /\ payload res = (if isMasked h1 then xorMask 0 key data else data)
    /\ err res = (if isFin h0 then None else Some ErrFragmented).
Proof. apply readFrame_inv. Qed.

Lemma decoded_frame_was_on_the_wire_witness :
  exists h0 h1 ext key data,
    [x01; x82; x01; x02; x03; x04; x49; x6b; x81; x00]
    = h0 :: h1 :: ext ++ key ++ data ++ [x81; x00]
    /\ framed h1 ext key data = true
    /\ opcode (mkResult x01 [x48; x69] (Some ErrFragmented)) = band h0 x0f
    /\ payload (mkResult x01 [x48; x69] (Some ErrFragmented))
       = (if isMasked h1 then xorMask 0 key data else data)
    /\ err (mkResult x01 [x48; x69] (Some ErrFragmented))
       = (if isFin h0 then None else Some ErrFragmented).
Proof.
  apply (decoded_frame_was_on_the_wire
           [x01; x82; x01; x02; x03; x04; x49; x6b; x81; x00] [x81; x00]
           (mkResult x01 [x48; x69] (Some ErrFragmented))).
  - reflexivity.
  - right. reflexivity.
  - discriminate.
Defined.

Lemma ReadFull_suffix (r : Reader) (n : nat) :
  exists consumed, r = consumed ++ snd (ReadFull r n).
Proof.
  unfold ReadFull. destruct (n <=? List.length r)%nat; simpl.
  - exists (firstn n r). symmetry. apply firstn_skipn.
  - exists r. symmetry. apply app_nil_r.
Qed.

Lemma readFrame_suffix (r : Reader) :
  exists consumed, r = consumed ++ snd (readFrame r).
Proof.
  destruct r as [|h0 [|h1 r]].
  - exists []. reflexivity.
  - exists [h0]. reflexivity.
  - destruct (byte_eqb (band h0 x0f) x08) eqn:E.
    + apply byte_eqb_eq in E. rewrite readFrame_close by assumption.
      exists [h0; h1]. reflexivity.
    + apply byte_eqb_neq in E. rewrite readFrame_steps by assumption.
      destruct (ReadFull_suffix r (extSize h1)) as [c1 H1].
      destruct (ReadFull r (extSize h1)) as [[ext [e|]] r1]; simpl in H1.
      { exists (h0 :: h1 :: c1). simpl. now rewrite <- H1. }
      destruct (ReadFull_suffix r1 (keySize h1)) as [c2 H2].
      destruct (ReadFull r1 (keySize h1)) as [[key [e|]] r2]; simpl in H2.
      { exists (h0 :: h1 :: c1 ++ c2). simpl.
        now rewrite <- app_assoc, <- H2, <- H1. }
      destruct (ReadFull_suffix r2 (Z.to_nat (declaredLen h1 ext)))
        as [c3 H3].
      destruct (ReadFull r2 _) as [[data [e|]] r3]; simpl in H3.
      all: exists (h0 :: h1 :: c1 ++ c2 ++ c3); simpl;
        now rewrite <- !app_assoc, <- H3, <- H2, <- H1.
Qed.

Lemma readFrame_ok_shorter (r : Reader) :
  err (fst (readFrame r)) = None ->
  (List.length (snd (readFrame r)) + 2 <= List.length r)%nat.
Proof.
  intros Herr. destruct (readFrame r) as [res rest] eqn:Hread.
  simpl in *.
  destruct (byte_eqb (opcode res) x08) eqn:E.
  - apply byte_eqb_eq in E.
    destruct (readFrame_opcode_close r) as (h0 & h1 & tl & -> & _ & Hc).
    { now rewrite Hread. }
    rewrite Hc in Hread. injection Hread as _ <-. simpl. lia.
  - apply byte_eqb_neq in E.
    destruct (readFrame_inv r rest res Hread (or_introl Herr) E)
      as (h0 & h1 & ext & key & data & -> & _).
    simpl. rewrite !length_app. lia.
Qed.

(** X5. [readFrame] only takes bytes off the front of the stream: on every
    input, error or not, the stream it leaves is a suffix of the one it was
    given, and it is shorter by at least the two header bytes whenever no
    error is returned. *)
Theorem readFrame_leaves_a_suffix (r : Reader) :
  (exists consumed, r = consumed ++ snd (readFrame r))
  /\ (err (fst (readFrame r)) = None ->
      (List.length (snd (readFrame r)) + 2 <= List.length r)%nat).
Proof. split; [apply readFrame_suffix | apply readFrame_ok_shorter]. Qed.

Lemma readFrame_leaves_a_suffix_witness :
  (List.length (snd (readFrame [x81; x01; x41; x88; x00])) + 2
   <= List.length [x81; x01; x41; x88; x00])%nat.
Proof.
  apply (proj2 (readFrame_leaves_a_suffix [x81; x01; x41; x88; x00])).
  reflexivity.
Defined.

(** X6. What [readFrame] returns is bounded: the opcode is below 16 on every
    input, the error is never a write error, and a payload returned without
    error is shorter than 4 GiB (2^32 bytes). *)
Theorem decoded_values_are_bounded (r : Reader) :
  int (opcode (fst (readFrame r))) < 16
  /\ err (fst (readFrame r)) <> Some ErrWrite
  /\ (err (fst (readFrame r)) = None ->
      Z.of_nat (List.length (payload (fst (readFrame r)))) < 2 ^ 32).
Proof.
  split; [apply readFrame_opcode_lt16|]. split; [|apply readFrame_payload_bound].
  destruct r as [|h0 [|h1 r]]; try discriminate.
  destruct (byte_eqb (band h0 x0f) x08) eqn:E.
  - apply byte_eqb_eq in E. rewrite readFrame_close by assumption. discriminate.
  - apply byte_eqb_neq in E. rewrite readFrame_steps by assumption.
    destruct (ReadFull r (extSize h1)) as [[ext [e|]] r1] eqn:R1.
    { apply ReadFull_err in R1. simpl. destruct R1 as [[->| ->] _]; discriminate. }
    destruct (ReadFull r1 (keySize h1)) as [[key [e|]] r2] eqn:R2.
    { apply ReadFull_err in R2. simpl. destruct R2 as [[->| ->] _]; discriminate. }
    destruct (ReadFull r2 _) as [[data [e|]] r3] eqn:R3.
    { apply ReadFull_err in R3. simpl. destruct R3 as [[->| ->] _]; discriminate. }
    simpl. destruct (isFin h0); discriminate.
Qed.

Lemma decoded_values_are_bounded_witness :
  Z.of_nat (List.length (payload (fst (readFrame [x81; x01; x41])))) < 2 ^ 32.
Proof.
  apply (proj2 (proj2 (decoded_values_are_bounded [x81; x01; x41]))).
  reflexivity.
Defined.

(** ** writeFrame and writeCloseFrame: what goes on the wire *)

Lemma lengthField_shape (n : Z) :
  0 <= n ->
  exists h1 ext,
    lengthField n = h1 :: ext
    /\ isMasked h1 = false
    /\ List.length ext
       = if n <? 126 then 0%nat else if n <=? 0xFFFF then 2%nat else 8%nat.
Proof.
  intros Hn. unfold lengthField.
  destruct (Z.ltb_spec n 126); [|destruct (Z.leb_spec n 0xFFFF)].
  - exists (as_byte n), []. repeat split.
    apply small_unmasked. rewrite int_as_byte, Z.mod_small; lia.
  - do 2 eexists. repeat split.
  - do 2 eexists. repeat split.
Qed.

(** X7. Every frame [writeFrame] sends, for any opcode byte and any payload,
    starts with a byte that has fin set, continues with a byte that has the
    mask bit clear, and is 2, 4 or 10 bytes longer than the payload (for
    payloads below 126 bytes, up to 0xFFFF bytes, and longer ones). *)
Theorem sent_frame_header (op : byte) (payload : list byte) :
  exists h1 tl,
    encodeFrame op payload = bor x80 op :: h1 :: tl
    /\ isFin (bor x80 op) = true
    /\ isMasked h1 = false
    /\ List.length (encodeFrame op payload)
       = Nat.add (List.length payload)
           (if Z.of_nat (List.length payload) <? 126 then 2%nat
            else if Z.of_nat (List.length payload) <=? 0xFFFF then 4%nat
            else 10%nat).
Proof.
  rewrite encodeFrame_eq.
  destruct (lengthField_shape (Z.of_nat (List.length payload)))
    as (h1 & ext & E & Hm & Hl); [lia|].
  rewrite E. exists h1, (ext ++ payload). split; [reflexivity|].
  split; [apply sent_fin|]. split; [exact Hm|].
  simpl. rewrite length_app, Hl.
  destruct (Z.of_nat (List.length payload) <? 126);
    [|destruct (Z.of_nat (List.length payload) <=? 0xFFFF)]; lia.
Qed.

Lemma sent_opcode_low (op : byte) : band (bor x80 op) x0f = band op x0f.
Proof.
  apply byte_eqb_eq.
  apply (byte_forall (fun o => byte_eqb (band (bor x80 o) x0f) (band o x0f))).
  vm_compute. reflexivity.
Qed.

(** X8. Of the opcode byte given to [writeFrame] only the low four bits
    reach the reader: for every opcode byte whose low four bits are not 0x8
    and every payload below 4 GiB, [readFrame] on the bytes sent returns
    [opcode & 0x0F] and the payload, not the opcode byte it was given. *)
Theorem only_low_opcode_bits_survive (op : byte) (payload rest : list byte) :
  band op x0f <> x08 ->
  Z.of_nat (List.length payload) < 2 ^ 32 ->
  readFrame (encodeFrame op payload ++ rest)
  = (mkResult (band op x0f) payload None, rest).
Proof.
  intros Hop Hlen. rewrite encodeFrame_eq.
  destruct (lengthField_framed _ payload eq_refl Hlen) as (h1 & ext & -> & Hm & Hf).
  pose proof (readFrame_frame (bor x80 op) h1 ext [] payload rest) as H.
  rewrite sent_opcode_low, sent_fin, Hm in H.
  simpl in H |- *. rewrite <- !app_assoc. apply H; assumption.
Qed.

Lemma only_low_opcode_bits_survive_witness :
  readFrame (encodeFrame x72 [x41; x42] ++ [x00])
  = (mkResult x02 [x41; x42] None, [x00]).
Proof.
  apply (only_low_opcode_bits_survive x72 [x41; x42] [x00]).
  - discriminate.
  - reflexivity.
Defined.

(** The payload [writeCloseFrame] builds. *)
Lemma writeCloseFrame_eq {W} `{Writer W} (w : W) (code : Z) (reason : string) :
  writeCloseFrame w code reason
  = writeFrame w x08
      (as_byte (Z.shiftr code 8) :: as_byte code :: bytes_of_string reason).
Proof. reflexivity. Qed.

Lemma code_bytes (code : Z) :
  int (as_byte (Z.shiftr code 8)) * 256 + int (as_byte code) = code mod 65536.
Proof.
  rewrite !int_as_byte, Z.shiftr_div_pow2 by lia.
  change (2 ^ 8) with 256. Z.div_mod_to_equations. lia.
Qed.

(** X9. [writeCloseFrame] with any status code and a reason of at most 123
    bytes sends one frame: 0x88, the length byte [2 + len(reason)], two bytes
    that hold the code modulo 2^16 in big-endian order (a code outside
    0..65535 is cut to its low 16 bits), and the bytes of the reason. *)
Theorem close_frame_layout (buf : list byte) (code : Z) (reason : string) :
  (List.length (bytes_of_string reason) <= 123)%nat ->
  exists l c0 c1,
    writeCloseFrame buf code reason
    = (buf ++ x88 :: l :: c0 :: c1 :: bytes_of_string reason, None)
    /\ int l = 2 + Z.of_nat (List.length (bytes_of_string reason))
    /\ int c0 * 256 + int c1 = code mod 65536.
Proof.
  intros Hlen. rewrite writeCloseFrame_eq, writeFrame_buffer.
  destruct (encodeFrame_inline x08
              (as_byte (Z.shiftr code 8) :: as_byte code
               :: bytes_of_string reason)) as (l & E & Hl).
  { simpl List.length. lia. }
  rewrite E. exists l, (as_byte (Z.shiftr code 8)), (as_byte code).
  split; [reflexivity|]. split.
  - rewrite Hl. simpl List.length. lia.
  - apply code_bytes.
Qed.

Lemma close_frame_layout_witness :
  exists l c0 c1,
    writeCloseFrame [] 1000 "bye"
    = ([] ++ x88 :: l :: c0 :: c1 :: bytes_of_string "bye", None)
    /\ int l = 2 + Z.of_nat (List.length (bytes_of_string "bye"))
    /\ int c0 * 256 + int c1 = 1000 mod 65536.
Proof.
  apply (close_frame_layout [] 1000 "bye"). simpl. lia.
Defined.

(** X10. The decoder does not read what the encoder puts into a close frame:
    on the bytes [writeCloseFrame] sends, for any code and reason,
    [readFrame] returns the close opcode with an empty payload and leaves
    the stream behind the two header bytes, so that the length extension (if
    any), the two code bytes and the reason are still unread. *)
Theorem own_close_frame_is_not_consumed
    (code : Z) (reason : string) (rest : list byte) :
  exists h1 tl,
    fst (writeCloseFrame ([] : list byte) code reason) = x88 :: h1 :: tl
    /\ readFrame (fst (writeCloseFrame ([] : list byte) code reason) ++ rest)
       = (mkResult x08 [] None, tl ++ rest)
    /\ (2 + List.length (bytes_of_string reason) <= List.length tl)%nat.
Proof.
  rewrite writeCloseFrame_eq, writeFrame_buffer. simpl fst.
  set (p := as_byte (Z.shiftr code 8) :: as_byte code :: bytes_of_string reason).
  rewrite encodeFrame_eq.
  destruct (lengthField_shape (Z.of_nat (List.length p))) as (h1 & ext & E & _ & _);
    [lia|].
  rewrite E. exists h1, (ext ++ p). split; [reflexivity|]. split.
  - simpl. apply readFrame_close. reflexivity.
  - rewrite length_app. subst p. simpl. lia.
Qed.



(** ** writeFrame on a connection that may fail *)

Lemma Write_Conn_fail (c : Conn) (p : list byte) :
  accepts c (List.length p) = false ->
  exists k, room c = Some k /\ (k < List.length p)%nat
            /\ Write c p
               = (mkConn (outbound c ++ firstn k p) (Some 0%nat) (closed c),
                  Some ErrWrite).
Proof.
  unfold accepts, Write, Writer_Conn. destruct (room c) as [k|]; [|discriminate].
  intros H. exists k. rewrite H. apply Nat.leb_gt in H. auto.
Qed.

(** The two writes of [writeFrame]: the header, then the payload. *)
Lemma writeFrame_two_writes {W} `{Writer W} (w : W) (op : byte)
    (payload : list byte) :
  writeFrame w op payload
  = let '(w, e) :=
      Write w (bor x80 op :: lengthField (Z.of_nat (List.length payload))) in
    match e with
    | Some e => (w, Some e)
    | None =>
        let '(w, e) := Write w payload in
        match e with Some e => (w, Some e) | None => (w, None) end
    end.
Proof.
  unfold writeFrame, lengthField.
  destruct (Z.of_nat (List.length payload) <? 126);
    [|destruct (Z.of_nat (List.length payload) <=? 0xFFFF)]; reflexivity.
Qed.

(** On a connection without room for the whole frame, [writeFrame] fails
    with the write error, and what went out is the part of the frame that
    fitted. *)
Lemma writeFrame_Conn_fail (c : Conn) (op : byte) (payload : list byte) :
  accepts c (List.length (encodeFrame op payload)) = false ->
  exists k,
    room c = Some k
    /\ (k < List.length (encodeFrame op payload))%nat
    /\ writeFrame c op payload
       = (mkConn (outbound c ++ firstn k (encodeFrame op payload))
            (Some 0%nat) (closed c),
          Some ErrWrite).
Proof.
  rewrite encodeFrame_eq.
  set (hdr := bor x80 op :: lengthField (Z.of_nat (List.length payload))).
  change (bor x80 op :: lengthField (Z.of_nat (List.length payload)) ++ payload)
    with (hdr ++ payload).
  intros Hacc. unfold accepts in Hacc.
  destruct (room c) as [k|] eqn:Hroom; [|discriminate].
  apply Nat.leb_gt in Hacc. rewrite length_app in Hacc.
  exists k. split; [reflexivity|]. split; [rewrite length_app; lia|].
  rewrite writeFrame_two_writes. fold hdr.
  destruct (Nat.le_gt_cases (List.length hdr) k) as [Hh|Hh].
  - rewrite Write_Conn_ok by (unfold accepts; rewrite Hroom; now apply Nat.leb_le).
    cbv beta iota zeta. rewrite Hroom. simpl option_map.
    match goal with
    | |- context [Write ?c1 payload] =>
        destruct (Write_Conn_fail c1 payload) as (k' & Hk' & _ & ->)
    end.
    { unfold accepts. simpl. apply Nat.leb_gt.
      change (S (List.length (lengthField (Z.of_nat (List.length payload)))))
        with (List.length hdr). lia. }
    cbn [room] in Hk'. injection Hk' as <-. cbn [outbound closed].
    rewrite firstn_app, (firstn_all2 hdr) by lia. now rewrite <- app_assoc.
  - destruct (Write_Conn_fail c hdr) as (k' & Hk' & _ & ->).
    { unfold accepts. rewrite Hroom. apply Nat.leb_gt. lia. }
    rewrite Hroom in Hk'. injection Hk' as <-.
    rewrite firstn_app. replace (k - List.length hdr)%nat with 0%nat by lia.
    simpl firstn at 2. now rewrite app_nil_r.
Qed.

(** X12. [writeFrame] on a connection either sends the whole frame and
    returns no error, or returns the write error after sending a proper
    prefix of the frame (nothing of the payload when the header did not go
    out); it never sends anything else, and it does not close the
    connection. *)
Theorem writeFrame_sends_frame_or_prefix
    (c : Conn) (op : byte) (payload : list byte) :
  let frame := encodeFrame op payload in
  let c' := fst (writeFrame c op payload) in
  let e := snd (writeFrame c op payload) in
  closed c' = closed c
  /\ ((e = None /\ outbound c' = outbound c ++ frame
       /\ accepts c (List.length frame) = true)
      \/ (e = Some ErrWrite
          /\ accepts c (List.length frame) = false
          /\ exists k, (k < List.length frame)%nat
                       /\ outbound c' = outbound c ++ firstn k frame)).
Proof.
  intros frame c' e. subst c' e. split; [apply writeFrame_Conn_closed|].
  destruct (accepts c (List.length frame)) eqn:Hacc.
  - left. subst frame. rewrite writeFrame_Conn_ok by assumption. auto.
  - right. subst frame.
    destruct (writeFrame_Conn_fail c op payload Hacc) as (k & _ & Hk & ->).
    simpl. split; [reflexivity|]. split; [reflexivity|]. exists k. auto.
Qed.

(** ** The loop, over whole sessions *)

Lemma writeFrame_Conn_extends (c : Conn) (op : byte) (payload : list byte) :
  exists sent,
    outbound (fst (writeFrame c op payload)) = outbound c ++ sent.
Proof.
  destruct (accepts c (List.length (encodeFrame op payload))) eqn:Hacc.
  - rewrite writeFrame_Conn_ok by assumption. eauto.
  - destruct (writeFrame_Conn_fail c op payload Hacc) as (k & _ & _ & ->).
    eauto.
Qed.

(** What one pass of the loop can change. *)
Lemma step_extends (s s' : Session) (fl : Flow) :
  step s = (fl, s') ->
  closed (conn s') = closed (conn s)
  /\ (exists sent, outbound (conn s') = outbound (conn s) ++ sent)
  /\ (exists lines, stdout s' = stdout s ++ lines)
  /\ (exists consumed, rw s = consumed ++ rw s')
  /\ (fl = Continue -> (List.length (rw s') < List.length (rw s))%nat).
Proof.
  unfold step.
  pose proof (readFrame_suffix (rw s)) as Hsuf.
  pose proof (readFrame_ok_shorter (rw s)) as Hlen.
  destruct (readFrame (rw s)) as [res r]. simpl in Hsuf, Hlen.
  destruct (err res) as [e|].
  { intros [= <- <-]. simpl. repeat split; eauto.
    - exists []. now rewrite app_nil_r.
    - discriminate. }
  specialize (Hlen eq_refl).
  destruct (byte_eqb (opcode res) x08).
  - rewrite writeCloseFrame_eq.
    pose proof (writeFrame_Conn_closed (conn s) x08
                  (as_byte (Z.shiftr 8 8) :: as_byte 8 :: bytes_of_string "bye"))
      as Hc.
    pose proof (writeFrame_Conn_extends (conn s) x08
                  (as_byte (Z.shiftr 8 8) :: as_byte 8 :: bytes_of_string "bye"))
      as Ho.
    destruct (writeFrame _ _ _) as [c [e|]]; simpl in Hc, Ho;
      intros [= <- <-]; simpl; repeat split; eauto; try discriminate;
      rewrite <- ?app_assoc; eauto.
  - pose proof (writeFrame_Conn_closed (conn s) (opcode res) (payload res)) as Hc.
    pose proof (writeFrame_Conn_extends (conn s) (opcode res) (payload res)) as Ho.
    destruct (writeFrame _ _ _) as [c [e|]]; simpl in Hc, Ho;
      intros [= <- <-]; simpl; repeat split; eauto; try discriminate;
      rewrite <- ?app_assoc; eauto; lia.
Qed.

Lemma serve_extends (n : nat) (s : Session) :
  (List.length (rw s) < n)%nat ->
  closed (conn (serve s)) = closed (conn s)
  /\ (exists sent, outbound (conn (serve s)) = outbound (conn s) ++ sent)
  /\ (exists lines, stdout (serve s) = stdout s ++ lines)
  /\ (exists consumed, rw s = consumed ++ rw (serve s)).
Proof.
  revert s. induction n as [|n IH]; intros s Hn; [lia|].
  rewrite serve_step.
  destruct (step s) as [fl s'] eqn:Hstep.
  destruct (step_extends _ _ _ Hstep) as (Hc & [sent Ho] & [lines Hl] & [cons Hr] & Hd).
  destruct fl.
  - destruct (IH s') as (Hc' & [sent' Ho'] & [lines' Hl'] & [cons' Hr']).
    { specialize (Hd eq_refl). lia. }
    repeat split.
    + congruence.
    + exists (sent ++ sent'). now rewrite Ho', Ho, app_assoc.
    + exists (lines ++ lines'). now rewrite Hl', Hl, app_assoc.
    + exists (cons ++ cons'). now rewrite Hr, Hr' at 1; rewrite app_assoc.
  - repeat split; eauto.
Qed.

(** X13. Every session, however it ends (end of stream, read error,
    fragmented frame, close frame, write error), closes the connection
    exactly once, only adds to what was already sent and printed, and takes
    its input off the front of the stream. *)
Theorem session_closes_once_and_only_appends (s : Session) :
  closed (conn (session s)) = S (closed (conn s))
  /\ (exists sent, outbound (conn (session s)) = outbound (conn s) ++ sent)
  /\ (exists lines, stdout (session s) = stdout s ++ lines)
  /\ (exists consumed, rw s = consumed ++ rw (session s)).
Proof.
  destruct (serve_extends (S (List.length (rw s))) s) as (Hc & Ho & Hl & Hr);
    [lia|].
  unfold session. simpl. rewrite Hc. auto.
Qed.

Lemma echoable_inv (f : Frame) :
  echoable f = true ->
  isFin (f_h0 f) = true
  /\ frameOpcode f <> x08
  /\ framed (f_h1 f) (f_ext f) (f_key f) (f_data f) = true.
Proof.
  unfold echoable. intros H.
  apply andb_true_iff in H. destruct H as [H Hf].
  apply andb_true_iff in H. destruct H as [Hfin Hop].
  apply negb_true_iff, byte_eqb_neq in Hop. auto.
Qed.

Lemma readFrame_wire (f : Frame) (tail : list byte) :
  echoable f = true ->
  readFrame (wire f ++ tail)
  = (mkResult (frameOpcode f) (framePayload f) None, tail).
Proof.
  intros H. apply echoable_inv in H. destruct H as (Hfin & Hop & Hf).
  unfold wire, frameOpcode, framePayload in *. simpl.
  rewrite <- !app_assoc, readFrame_frame by assumption. now rewrite Hfin.
Qed.

(** One pass over an echoable frame, on a connection without a limit. *)
Lemma step_echo (f : Frame) (tail sent : list byte) (n : nat)
    (out : list Line) :
  echoable f = true ->
  step (mkSession (wire f ++ tail) (mkConn sent None n) out)
  = (Continue,
     mkSession tail (mkConn (sent ++ echoOf f) None n) (out ++ [logOf f])).
Proof.
  intros H. unfold step. cbn [rw conn stdout].
  rewrite readFrame_wire by assumption. cbn [err opcode payload].
  apply echoable_inv in H. destruct H as (_ & Hop & _).
  apply byte_eqb_neq in Hop. rewrite Hop.
  rewrite writeFrame_Conn_ok by reflexivity. reflexivity.
Qed.

(** The loop over a run of echoable frames: each is answered before the next
    is read, and the loop goes on with what follows the run. *)
Lemma serve_echo (fs : list Frame) (tail sent : list byte) (n : nat)
    (out : list Line) :
  forallb echoable fs = true ->
  serve (mkSession (concat (map wire fs) ++ tail) (mkConn sent None n) out)
  = serve (mkSession tail
             (mkConn (sent ++ concat (map echoOf fs)) None n)
             (out ++ map logOf fs)).
Proof.
  revert sent out. induction fs as [|f fs IH]; intros sent out H.
  - simpl. now rewrite !app_nil_r.
  - cbn [forallb] in H. apply andb_true_iff in H. destruct H as [Hf Hfs].
    cbn [map concat]. rewrite <- app_assoc, serve_step, step_echo by assumption.
    rewrite IH by assumption. now rewrite <- !app_assoc.
Qed.

(** X14. Frames are answered in order until the peer hangs up: for any run
    of whole frames with fin set and opcodes other than close, followed by
    the end of the stream, on a connection without a write limit, the session
    sends exactly the echoes of the frames, in their order, and nothing else
    (no close frame), prints one line per frame and the [io.EOF] read error,
    and closes the connection once. *)
Theorem echo_until_end_of_stream (fs : list Frame) (sent : list byte)
    (n : nat) (out : list Line) :
  forallb echoable fs = true ->
  session (mkSession (concat (map wire fs)) (mkConn sent None n) out)
  = mkSession []
      (mkConn (sent ++ concat (map echoOf fs)) None (S n))
      (out ++ map logOf fs ++ [ReadFrameError EOF]).
Proof.
  intros H. unfold session.
  rewrite <- (app_nil_r (concat (map wire fs))), serve_echo by assumption.
  rewrite serve_step. cbn. now rewrite <- app_assoc.
Qed.

Lemma echo_until_end_of_stream_witness :
  session
    (mkSession
       (concat
          (map wire
             [mkFrame x81 x82 [] [x01; x02; x03; x04] [x49; x6b];
              mkFrame x8a x01 [] [] [x21]]))
       (mkConn [] None 0) [])
  = mkSession []
      (mkConn [x81; x02; x48; x69; x8a; x01; x21] None 1)
      [ReceivedFrame x01 [x48; x69]; ReceivedFrame x0a [x21];
       ReadFrameError EOF].
Proof.
  apply (echo_until_end_of_stream
           [mkFrame x81 x82 [] [x01; x02; x03; x04] [x49; x6b];
            mkFrame x8a x01 [] [] [x21]] [] 0%nat []).
  reflexivity.
Defined.

(** X15. Frames are answered in order until a close frame: for any run of
    echoable frames followed by a header with opcode 0x8, on a connection
    without a write limit, the session sends the echoes in order and then
    the close reply (0x88 0x05 0x00 0x08 "bye"), closes the connection once,
    and leaves everything behind the two bytes of the close header unread. *)
Theorem echo_until_close (fs : list Frame) (h0 h1 : byte)
    (rest sent : list byte) (n : nat) (out : list Line) :
  forallb echoable fs = true ->
  band h0 x0f = x08 ->
  session (mkSession (concat (map wire fs) ++ h0 :: h1 :: rest)
             (mkConn sent None n) out)
  = mkSession rest
      (mkConn (sent ++ concat (map echoOf fs) ++ closeReply) None (S n))
      (out ++ map logOf fs ++ [ReceivedFrame x08 []; ReceivedClose]).
Proof.
  intros H Hop. unfold session.
  rewrite serve_echo by assumption. rewrite serve_step.
  unfold step. cbn [rw conn stdout].
  rewrite readFrame_close by assumption. cbn [err opcode payload].
  change (byte_eqb x08 x08) with true. cbv iota.
  rewrite writeCloseFrame_eq, writeFrame_Conn_ok by reflexivity.
  cbn. now rewrite <- !app_assoc.
Qed.

Lemma echo_until_close_witness :
  session
    (mkSession
       (concat (map wire [mkFrame x82 x7e [x00; x01] [] [xff]])
        ++ x88 :: x82 :: [x00; x00; x00; x00; x03; xe8])
       (mkConn [] None 0) [])
  = mkSession [x00; x00; x00; x00; x03; xe8]
      (mkConn ([] ++ concat (map echoOf [mkFrame x82 x7e [x00; x01] [] [xff]])
               ++ closeReply) None 1)
      ([] ++ map logOf [mkFrame x82 x7e [x00; x01] [] [xff]]
       ++ [ReceivedFrame x08 []; ReceivedClose]).
Proof.
  apply (echo_until_close [mkFrame x82 x7e [x00; x01] [] [xff]] x88 x82
           [x00; x00; x00; x00; x03; xe8] [] 0%nat []).
  - reflexivity.
  - reflexivity.
Defined.

(** X16. Any error from [readFrame] ends the session at once, the
    fragmentation error included: nothing is written to the peer (no echo, no
    close frame), the error is printed, the connection is closed, and the
    stream stays where [readFrame] left it. *)
Theorem read_error_ends_session (s : Session) (e : error) :
  err (fst (readFrame (rw s))) = Some e ->
  session s
  = mkSession (snd (readFrame (rw s))) (Close (conn s))
      (stdout s ++ [ReadFrameError e]).
Proof.
  intros H. unfold session. rewrite serve_step. unfold step.
  destruct (readFrame (rw s)) as [res r]. simpl in H. rewrite H. reflexivity.
Qed.

Lemma read_error_ends_session_witness :
  session (mkSession [x01; x01; x41; x81; x01; x42] (mkConn [] None 0) [])
  = mkSession (snd (readFrame [x01; x01; x41; x81; x01; x42]))
      (Close (mkConn [] None 0)) ([] ++ [ReadFrameError ErrFragmented]).
Proof.
  apply (read_error_ends_session
           (mkSession [x01; x01; x41; x81; x01; x42] (mkConn [] None 0) [])
           ErrFragmented).
  reflexivity.
Defined.

(** X17. When the connection has no room for the echo of a decoded frame,
    the session ends in that pass: the write error is printed, no further
    frame is read from the stream, what was sent is at most a proper prefix
    of the echo, and the connection is closed once. *)
Theorem write_error_ends_session (s : Session) (res : Result) (r : Reader) :
  readFrame (rw s) = (res, r) ->
  err res = None ->
  opcode res <> x08 ->
  accepts (conn s)
    (List.length (encodeFrame (opcode res) (payload res))) = false ->
  rw (session s) = r
  /\ stdout (session s)
     = stdout s ++ [ReceivedFrame (opcode res) (payload res);
                    WriteFrameError ErrWrite]
  /\ closed (conn (session s)) = S (closed (conn s))
  /\ exists k,
       (k < List.length (encodeFrame (opcode res) (payload res)))%nat
       /\ outbound (conn (session s))
          = outbound (conn s)
            ++ firstn k (encodeFrame (opcode res) (payload res)).
Proof.
  intros Hread Herr Hop Hacc.
  destruct (writeFrame_Conn_fail _ _ _ Hacc) as (k & _ & Hk & Hw).
  unfold session. rewrite serve_step. unfold step.
  rewrite Hread, Herr. apply byte_eqb_neq in Hop. rewrite Hop, Hw.
  cbn. rewrite <- app_assoc. repeat split. exists k. auto.
Qed.

Lemma write_error_ends_session_witness :
  rw (session (mkSession [x81; x02; x48; x69; x81; x00]
                 (mkConn [] (Some 3%nat) 0) []))
  = [x81; x00]
  /\ stdout (session (mkSession [x81; x02; x48; x69; x81; x00]
                        (mkConn [] (Some 3%nat) 0) []))
     = [] ++ [ReceivedFrame x01 [x48; x69]; WriteFrameError ErrWrite].
Proof.
  destruct (write_error_ends_session
              (mkSession [x81; x02; x48; x69; x81; x00]
                 (mkConn [] (Some 3%nat) 0) [])
              (mkResult x01 [x48; x69] None) [x81; x00])
    as (H1 & H2 & _); try reflexivity; try discriminate.
  split; assumption.
Defined.

(** ** The handshake: what the handler sets and what it looks at *)



(** X19. The handler of [main.go] answers the handshake exactly as the
    handshake-only handler of [part_000] does: the same 400 responses with
    the same messages, and the same 101 response headers, for every request
    and whether or not the connection can be taken over. *)
Theorem handshake_unchanged_from_part_000
    (header : Header) (hijack : option Session) :
  match Part000.websocketHandler header with
  | Part000.HttpError code msg =>
      websocketHandler header hijack = HttpError code msg
  | Part000.Completed h =>
      switched (websocketHandler header hijack) = Some h
  end.
Proof.
  unfold Part000.websocketHandler, websocketHandler, magicGUID.
  destruct (negb (Get header "Connection" =? "Upgrade")%string
            || negb (Get header "Upgrade" =? "websocket")%string);
    [reflexivity|].
  destruct (Get header "Sec-WebSocket-Key" =? "")%string; [reflexivity|].
  destruct hijack; reflexivity.
Qed.

(** X20. The handler looks at the first values of [Connection], [Upgrade]
    and [Sec-WebSocket-Key] and at nothing else in the request: two
    requests that agree on these three give the same outcome.  The method,
    [Sec-WebSocket-Version], [Origin] and [Host] are never checked. *)
Theorem handshake_reads_three_headers_only
    (header header' : Header) (hijack : option Session) :
  Get header "Connection" = Get header' "Connection" ->
  Get header "Upgrade" = Get header' "Upgrade" ->
  Get header "Sec-WebSocket-Key" = Get header' "Sec-WebSocket-Key" ->
  websocketHandler header hijack = websocketHandler header' hijack.
Proof.
  intros Hc Hu Hk. unfold websocketHandler. now rewrite Hc, Hu, Hk.
Qed.

Lemma handshake_reads_three_headers_only_witness :
  websocketHandler
    (<["Sec-Websocket-Version" := ["8"]]>
       (<["Sec-Websocket-Key" := ["x3JJHMbDL1EzLkh9GBhXDw=="]]>
          (<["Upgrade" := ["websocket"]]>
             (<["Connection" := ["Upgrade"; "keep-alive"]]> ∅))))
    None
  = websocketHandler
      (<["Sec-Websocket-Key" := ["x3JJHMbDL1EzLkh9GBhXDw=="]]>
         (<["Upgrade" := ["websocket"]]>
            (<["Connection" := ["Upgrade"]]> ∅)))
      None.
Proof.
  apply (handshake_reads_three_headers_only
           (<["Sec-Websocket-Version" := ["8"]]>
              (<["Sec-Websocket-Key" := ["x3JJHMbDL1EzLkh9GBhXDw=="]]>
                 (<["Upgrade" := ["websocket"]]>
                    (<["Connection" := ["Upgrade"; "keep-alive"]]> ∅))))
           (<["Sec-Websocket-Key" := ["x3JJHMbDL1EzLkh9GBhXDw=="]]>
              (<["Upgrade" := ["websocket"]]>
                 (<["Connection" := ["Upgrade"]]> ∅)))
           None).
  - vm_compute. reflexivity.
  - vm_compute. reflexivity.
  - vm_compute. reflexivity.
Defined.

(** ** The masking loop on parts of a payload *)

Lemma xorMask_shift (key payload : list byte) (i : nat) :
  xorMask (i + 4) key payload = xorMask i key payload.
Proof.
  revert i. induction payload as [|b rest IH]; intros i; cbn [xorMask];
    [reflexivity|].
  change (S (i + 4)) with (S i + 4)%nat. rewrite IH.
  replace ((i + 4) mod 4)%nat with (i mod 4)%nat; [reflexivity|].
  replace (i + 4)%nat with (i + 1 * 4)%nat by lia.
  symmetry. apply Nat.Div0.mod_add.
Qed.

(** X21. The masking loop works byte by byte with a key index of period 4:
    it keeps the length of the payload, and the payload can be unmasked in
    pieces, the second piece starting at the key index the first piece
    ended on: [mask(a ++ b) = mask(a) ++ mask_from(len a)(b)], where only
    [len a mod 4] matters. *)
Theorem masking_in_pieces (key a b : list byte) :
  List.length (xorMask 0 key (a ++ b)) = List.length (a ++ b)
  /\ xorMask 0 key (a ++ b)
     = xorMask 0 key a ++ xorMask (List.length a mod 4) key b.
Proof.
  split; [apply xorMask_length|].
  assert (Happ : forall i, xorMask i key (a ++ b)
                           = xorMask i key a ++ xorMask (i + List.length a) key b).
  { induction a as [|x a IH]; intros i; cbn [xorMask app List.length].
    - now rewrite Nat.add_0_r.
    - rewrite IH. now replace (S i + List.length a)%nat
                        with (i + S (List.length a))%nat by lia. }
  rewrite Happ. f_equal. cbn [Nat.add].
  assert (Hper : forall q r, xorMask (r + q * 4) key b = xorMask r key b).
  { induction q as [|q IH]; intros r.
    - now replace (r + 0 * 4)%nat with r by lia.
    - replace (r + S q * 4)%nat with ((r + q * 4) + 4)%nat by lia.
      rewrite xorMask_shift. apply IH. }
  rewrite (Nat.div_mod_eq (List.length a) 4) at 1.
  rewrite Nat.add_comm, Nat.mul_comm. apply Hper.
Qed.
